(** * dependency-sentry: the outdated-set builder and the vulnerability
      aggregator, embedded from [src/checker.js] and [src/security.js]

    The development follows the JavaScript sources function by function.
    JavaScript values that come out of [JSON.parse] are an inductive type,
    exceptions are an explicit [Throw] outcome, and everything the code does
    to the outside (console warnings, the module-level cache, registry
    requests) lives in an explicit process state that is threaded through a
    small state-and-exception monad.  What the outside answers (file system,
    child processes, the registry, [JSON.parse]) is a record of oracles.

    The repository holds each of the two files twice, as a CommonJS module
    and as an ES module.  The two copies of the checker run the same code
    and share one embedding; the two copies of the aggregator differ and are
    embedded side by side, as [security] and [security_esm].

    The file has three parts: the program, the vocabulary in which the
    statements are written together with the worlds of the worked runs, and
    the properties. *)

From Stdlib Require Import ZArith NArith Ascii String.
From stdpp Require Import gmap strings list pretty.

Set Warnings "-register-all".

(** ** JavaScript values *)

(** A JSON number is observed by this program in two ways only: through its
    sign (truthiness, [> 0]) and through its [ToString] text. *)
Record number := { num_sign : comparison; num_text : string }.

Inductive value :=
| VUndefined
| VNull
| VBool (b : bool)
| VNum (n : number)
| VStr (s : string)
| VArr (l : list value)
| VObj (o : list (string * value)).

(** An ordinary object: its own data properties in creation order. *)
Abbreviation object := (list (string * value)).

(** Thrown values.  [status] and [stdout] are the extra fields that
    [child_process.execSync] attaches to its errors; a plain [Error] or
    [TypeError] has neither. *)
Record js_error := { message : string; status : option Z; stdout : option string }.

Definition Error (msg : string) : js_error :=
  {| message := msg; status := None; stdout := None |}.

Inductive result (A : Type) :=
| Ok (a : A)
| Throw (e : js_error).
Arguments Ok {A} a.
Arguments Throw {A} e.

Definition is_ok {A} (r : result A) : bool :=
  match r with Ok _ => true | Throw _ => false end.

(** Sequencing of steps that may throw. *)
Definition and_then {A B} (r : result A) (k : A -> result B) : result B :=
  match r with
  | Ok a => k a
  | Throw e => Throw e
  end.

Notation "x <~ r ;; k" := (and_then r (fun x => k))
  (at level 100, r at next level, right associativity).

(** [ToBoolean]. *)
Definition truthy (v : value) : bool :=
  match v with
  | VUndefined | VNull => false
  | VBool b => b
  | VNum n => match num_sign n with Eq => false | _ => true end
  | VStr s => negb (String.eqb s "")
  | VArr _ | VObj _ => true
  end.

(** [a || b] on values. *)
Definition or_else (a b : value) : value := if truthy a then a else b.

Definition typeof (v : value) : string :=
  match v with
  | VUndefined => "undefined"
  | VNull | VArr _ | VObj _ => "object"
  | VBool _ => "boolean"
  | VNum _ => "number"
  | VStr _ => "string"
  end.

(** *** Strings *)

(** [s.startsWith(p)]. *)
Definition startsWith (s p : string) : bool := String.prefix p s.

(** [s.includes(p)]. *)
Fixpoint includes (s p : string) : bool :=
  String.prefix p s ||
  match s with
  | EmptyString => false
  | String _ s' => includes s' p
  end.

(** The characters of a string as one-character strings. *)
Fixpoint chars (s : string) : list string :=
  match s with
  | EmptyString => []
  | String c s' => String c EmptyString :: chars s'
  end.

Definition is_space (c : ascii) : bool :=
  let n := N_of_ascii c in ((9 <=? n) && (n <=? 13) || (n =? 32))%N.

Fixpoint trimStart (s : string) : string :=
  match s with
  | String c s' => if is_space c then trimStart s' else s
  | EmptyString => s
  end.

Fixpoint trimEnd (s : string) : string :=
  match s with
  | EmptyString => EmptyString
  | String c s' =>
      match trimEnd s' with
      | EmptyString => if is_space c then EmptyString else String c EmptyString
      | t => String c t
      end
  end.

(** [s.trim()], on the white space of ASCII. *)
Definition trim (s : string) : string := trimEnd (trimStart s).

(** *** Own properties *)

Fixpoint obj_get (o : object) (k : string) : option value :=
  match o with
  | [] => None
  | (k', v) :: o' => if String.eqb k' k then Some v else obj_get o' k
  end.

(** [CreateDataProperty]: an existing key keeps its place and takes the new
    value, a new key goes to the end. *)
Fixpoint obj_set (o : object) (k : string) (v : value) : object :=
  match o with
  | [] => [(k, v)]
  | (k', v') :: o' =>
      if String.eqb k' k then (k', v) :: o' else (k', v') :: obj_set o' k v
  end.

(** The names every ordinary object inherits from [Object.prototype]; each of
    them reads as a truthy value (a function, or the prototype itself for
    [__proto__]) unless an own property shadows it. *)
Definition Object_prototype_keys : list string :=
  [ "constructor"; "hasOwnProperty"; "isPrototypeOf"; "propertyIsEnumerable";
    "toLocaleString"; "toString"; "valueOf"; "__proto__";
    "__defineGetter__"; "__defineSetter__"; "__lookupGetter__";
    "__lookupSetter__" ].

Definition inherited (k : string) : bool :=
  existsb (String.eqb k) Object_prototype_keys.

(** Truthiness of [o[k]] for an ordinary object [o] and any key [k]. *)
Definition has_truthy (o : object) (k : string) : bool :=
  match obj_get o k with
  | Some v => truthy v
  | None => inherited k
  end.

(** [v.k] for one of the fixed property names the program reads
    ([vulnerabilities], [via], [severity], [range], [title], [url],
    [fixedIn], [advisory], [version], [overview], [id],
    [vulnerable_versions], [patched_versions]): none of them is defined on a
    built-in prototype, so only own properties of objects answer. *)
Definition get (v : value) (k : string) : result value :=
  match v with
  | VUndefined =>
      Throw (Error ("Cannot read properties of undefined (reading '" +:+ k +:+ "')"))
  | VNull =>
      Throw (Error ("Cannot read properties of null (reading '" +:+ k +:+ "')"))
  | VObj o => Ok (default VUndefined (obj_get o k))
  | _ => Ok VUndefined
  end.

(** *** Key order *)

Definition is_digit (c : ascii) : bool :=
  let n := N_of_ascii c in ((48 <=? n) && (n <=? 57))%N.

Fixpoint digits_value (acc : N) (s : string) : option N :=
  match s with
  | EmptyString => Some acc
  | String c s' =>
      if is_digit c then digits_value (acc * 10 + (N_of_ascii c - 48))%N s'
      else None
  end.

(** A canonical numeric string below [2^32 - 1] is an array index. *)
Definition array_index (k : string) : option N :=
  match k with
  | EmptyString => None
  | String c rest =>
      if Ascii.eqb c "0" && negb (String.eqb rest "") then None
      else
        match digits_value 0 k with
        | Some n => if (n <? 4294967295)%N then Some n else None
        | None => None
        end
  end.

Fixpoint insert_index {A} (n : N) (e : A) (l : list (N * A)) : list (N * A) :=
  match l with
  | [] => [(n, e)]
  | (m, e') :: l' =>
      if (n <? m)%N then (n, e) :: l else (m, e') :: insert_index n e l'
  end.

Fixpoint index_entries (o : object) : list (N * (string * value)) :=
  match o with
  | [] => []
  | (k, v) :: o' =>
      match array_index k with
      | Some n => insert_index n (k, v) (index_entries o')
      | None => index_entries o'
      end
  end.

Definition named_entries (o : object) : object :=
  filter (λ kv, array_index kv.1 = None) o.

(** [OrdinaryOwnPropertyKeys]: array indices in ascending order, then the
    other keys in creation order. *)
Definition own_entries (o : object) : object :=
  (snd <$> index_entries o) ++ named_entries o.

Fixpoint indexed {A} (i : nat) (l : list A) : list (string * A) :=
  match l with
  | [] => []
  | x :: l' => (pretty i, x) :: indexed (S i) l'
  end.

(** [Object.entries(v)]. *)
Definition Object_entries (v : value) : result (list (string * value)) :=
  match v with
  | VUndefined | VNull =>
      Throw (Error "Cannot convert undefined or null to object")
  | VObj o => Ok (own_entries o)
  | VArr l => Ok (indexed 0 l)
  | VStr s => Ok (indexed 0 (VStr <$> chars s))
  | VBool _ | VNum _ => Ok []
  end.

(** [Object.values(v)]. *)
Definition Object_values (v : value) : result (list value) :=
  match Object_entries v with
  | Ok es => Ok (snd <$> es)
  | Throw e => Throw e
  end.

(** *** Conversions *)

(** [ToString].  An array joins its elements with commas, [null] and
    [undefined] elements giving the empty string.  A parsed object has no
    callable [toString] of its own: it prints as [[object Object]] through
    the inherited one, and cannot be converted at all when an own data
    property shadows it. *)
Fixpoint ToString (v : value) : result string :=
  match v with
  | VUndefined => Ok "undefined"
  | VNull => Ok "null"
  | VBool b => Ok (if b then "true" else "false")
  | VNum n => Ok (num_text n)
  | VStr s => Ok s
  | VArr l =>
      (fix join (l : list value) : result string :=
         match l with
         | [] => Ok ""
         | x :: l' =>
             let piece :=
               match x with
               | VUndefined | VNull => Ok ""
               | _ => ToString x
               end in
             match piece, l' with
             | Throw e, _ => Throw e
             | Ok p, [] => Ok p
             | Ok p, _ :: _ =>
                 match join l' with
                 | Ok r => Ok (p +:+ "," +:+ r)
                 | Throw e => Throw e
                 end
             end
         end) l
  | VObj o =>
      match obj_get o "toString" with
      | Some _ => Throw (Error "Cannot convert object to primitive value")
      | None => Ok "[object Object]"
      end
  end.

(** [x > 0].  Objects and arrays are first converted to a primitive, which
    for parsed data is their [ToString]; the numeric value of a string is
    left to the engine ([StringToNumber]). *)
Definition gt_zero (string_positive : string -> bool) (v : value) : result bool :=
  match v with
  | VUndefined | VNull => Ok false
  | VBool b => Ok b
  | VNum n => Ok (match num_sign n with Gt => true | _ => false end)
  | VStr s => Ok (string_positive s)
  | VArr _ | VObj _ =>
      match ToString v with
      | Ok s => Ok (string_positive s)
      | Throw e => Throw e
      end
  end.

(** ** The process: state and exceptions *)

(** A computation reads and updates a state [S] and either returns or
    throws; the state survives a throw (what was printed stays printed). *)
Definition M (S A : Type) : Type := S -> result A * S.

Definition ret {S A} (a : A) : M S A := fun s => (Ok a, s).

Definition throw {S A} (e : js_error) : M S A := fun s => (Throw e, s).

Definition bind {S A B} (m : M S A) (k : A -> M S B) : M S B :=
  fun s =>
    match m s with
    | (Ok a, s') => k a s'
    | (Throw e, s') => (Throw e, s')
    end.

(** [try { m } catch (e) { h e }]. *)
Definition try_catch {S A} (m : M S A) (h : js_error -> M S A) : M S A :=
  fun s =>
    match m s with
    | (Ok a, s') => (Ok a, s')
    | (Throw e, s') => h e s'
    end.

(** A pure step that may throw. *)
Definition lift {S A} (r : result A) : M S A := fun s => (r, s).

Notation "x <- m ;; k" := (bind m (fun x => k))
  (at level 100, m at next level, right associativity).
Notation "m ;;; k" := (bind m (fun _ => k))
  (at level 100, right associativity).

(** A [for (const x of xs) body] loop whose body may throw out of it. *)
Fixpoint for_of {S A} (xs : list A) (body : A -> M S unit) : M S unit :=
  match xs with
  | [] => ret tt
  | x :: xs' => body x ;;; for_of xs' body
  end.

(** ** The [semver] library, as far as the checker calls it *)

Module semver.

(** A parsed version.  Build metadata takes no part in any comparison and is
    not kept. *)
Inductive identifier :=
| Numeric (n : N)
| Alphanumeric (s : string).

Record SemVer := {
  major : N;
  minor : N;
  patch : N;
  prerelease : list identifier
}.

(** Numeric identifiers are lower than alphanumeric ones; numbers compare
    by value and strings by code unit. *)
Definition compareIdentifiers (a b : identifier) : comparison :=
  match a, b with
  | Numeric x, Numeric y => (x ?= y)%N
  | Numeric _, Alphanumeric _ => Lt
  | Alphanumeric _, Numeric _ => Gt
  | Alphanumeric x, Alphanumeric y => String.compare x y
  end.

Definition compareMain (a b : SemVer) : comparison :=
  match (major a ?= major b)%N with
  | Eq =>
      match (minor a ?= minor b)%N with
      | Eq => (patch a ?= patch b)%N
      | c => c
      end
  | c => c
  end.

Fixpoint comparePreLoop (a b : list identifier) : comparison :=
  match a, b with
  | [], [] => Eq
  | _ :: _, [] => Gt
  | [], _ :: _ => Lt
  | x :: a', y :: b' =>
      match compareIdentifiers x y with
      | Eq => comparePreLoop a' b'
      | c => c
      end
  end.

(** A release is greater than any of its pre-releases. *)
Definition comparePre (a b : SemVer) : comparison :=
  match prerelease a, prerelease b with
  | _ :: _, [] => Lt
  | [], _ :: _ => Gt
  | [], [] => Eq
  | pa, pb => comparePreLoop pa pb
  end.

Definition compare (a b : SemVer) : comparison :=
  match compareMain a b with
  | Eq => comparePre a b
  | c => c
  end.

(** The two grammars of the library, versions and ranges, are an interface:
    nothing the checker does depends on more than this. *)
Class Grammar := {
  (** the version a string spells, if it spells one *)
  parse : string -> option SemVer;
  (** the message of the [TypeError] raised for anything else *)
  invalid : value -> string;
  Range : Type;
  (** the range a string spells, if it spells one *)
  parseRange : string -> option Range;
  (** whether a parsed version lies in a range *)
  testSet : Range -> SemVer -> bool
}.

Section with_grammar.
Context `{Grammar}.

(** [new SemVer(version)]. *)
Definition new_SemVer (version : value) : result SemVer :=
  match version with
  | VStr s =>
      match parse s with
      | Some sv => Ok sv
      | None => Throw (Error (invalid version))
      end
  | _ => Throw (Error (invalid version))
  end.

(** [semver.gt(a, b)]: [compare(a, b) > 0], parsing [a] first. *)
Definition gt (a b : value) : result bool :=
  match new_SemVer a with
  | Throw e => Throw e
  | Ok sa =>
      match new_SemVer b with
      | Throw e => Throw e
      | Ok sb => Ok (match compare sa sb with Gt => true | _ => false end)
      end
  end.

(** [range.test(version)]: a falsy or unparsable version is simply not in
    the range; a truthy value that is not a string is a [TypeError] once a
    comparator looks at it. *)
Definition test (r : Range) (version : value) : result bool :=
  if negb (truthy version) then Ok false
  else
    match version with
    | VStr s =>
        match parse s with
        | Some sv => Ok (testSet r sv)
        | None => Ok false
        end
    | _ => Throw (Error (invalid version))
    end.

(** The [forEach] of [maxSatisfying]; [best] is the pair [max], [maxSV]. *)
Fixpoint maxSatisfying_loop (r : Range) (versions : list value)
    (best : option (value * SemVer)) : result value :=
  match versions with
  | [] => Ok (match best with Some (max, _) => max | None => VNull end)
  | v :: versions' =>
      match test r v with
      | Throw e => Throw e
      | Ok false => maxSatisfying_loop r versions' best
      | Ok true =>
          match new_SemVer v with
          | Throw e => Throw e
          | Ok sv =>
              let higher :=
                match best with
                | None => true
                | Some (_, maxSV) =>
                    match compare maxSV sv with Lt => true | _ => false end
                end in
              maxSatisfying_loop r versions'
                (if higher then Some (v, sv) else best)
          end
      end
  end.

(** [semver.maxSatisfying(versions, range)]: [null] for an invalid range. *)
Definition maxSatisfying (versions : list value) (range : string) : result value :=
  match parseRange range with
  | None => Ok VNull
  | Some r => maxSatisfying_loop r versions None
  end.

End with_grammar.

(** *** The version grammar *)

(** The strict grammar: an optional [v], three numeric identifiers without
    leading zeros, an optional pre-release after [-] and optional build
    metadata after [+], all of it trimmed and at most 256 characters long. *)

Definition MAX_LENGTH : nat := 256.
Definition MAX_SAFE_INTEGER : N := 9007199254740991.

(** The text before the first [sep], and the text after it if there is one. *)
Fixpoint cut (sep : ascii) (s : string) : string * option string :=
  match s with
  | EmptyString => (EmptyString, None)
  | String c s' =>
      if Ascii.eqb c sep then (EmptyString, Some s')
      else let (a, b) := cut sep s' in (String c a, b)
  end.

Fixpoint split (sep : ascii) (s : string) : list string :=
  match s with
  | EmptyString => [EmptyString]
  | String c s' =>
      if Ascii.eqb c sep then EmptyString :: split sep s'
      else
        match split sep s' with
        | piece :: pieces => String c piece :: pieces
        | [] => [String c EmptyString]
        end
  end.

Fixpoint all_chars (f : ascii -> bool) (s : string) : bool :=
  match s with
  | EmptyString => true
  | String c s' => f c && all_chars f s'
  end.

Definition is_letter_dash_number (c : ascii) : bool :=
  let n := N_of_ascii c in
  (is_digit c || ((65 <=? n) && (n <=? 90)) || ((97 <=? n) && (n <=? 122))
   || (n =? 45))%N.

Definition leading_zero (s : string) : bool :=
  match s with
  | String c (String _ _) => Ascii.eqb c "0"
  | _ => false
  end.

(** [0|[1-9]\d*]. *)
Definition numeric_identifier (s : string) : option N :=
  if String.eqb s "" || leading_zero s then None else digits_value 0 s.

Definition main_identifier (s : string) : option N :=
  match numeric_identifier s with
  | Some n => if (n <=? MAX_SAFE_INTEGER)%N then Some n else None
  | None => None
  end.

Definition prerelease_identifier (s : string) : option identifier :=
  if String.eqb s "" then None
  else if all_chars is_digit s then Numeric <$> numeric_identifier s
  else if all_chars is_letter_dash_number s then Some (Alphanumeric s)
  else None.

Definition build_identifier (s : string) : bool :=
  negb (String.eqb s "") && all_chars is_letter_dash_number s.

Definition strip_v (s : string) : string :=
  match s with
  | String c s' => if Ascii.eqb c "v" then s' else s
  | EmptyString => s
  end.

Definition parse_version (s : string) : option SemVer :=
  if (MAX_LENGTH <? String.length s)%nat then None
  else
    let (rest, build) := cut "+" (strip_v (trim s)) in
    let (main, pre) := cut "-" rest in
    if forallb build_identifier (from_option (split ".") [] build) then
      match split "." main, mapM prerelease_identifier (from_option (split ".") [] pre) with
      | [a; b; c], Some ids =>
          match main_identifier a, main_identifier b, main_identifier c with
          | Some x, Some y, Some z =>
              Some {| major := x; minor := y; patch := z; prerelease := ids |}
          | _, _, _ => None
          end
      | _, _ => None
      end
    else None.

(** *** Ranges of one primitive *)

(** The part of the range grammar that the examples below use: one caret,
    tilde or comparison operator in front of a full version.  The bounds are
    the ones the library desugars these operators to. *)
Inductive operator := op_gte | op_gt | op_lte | op_lt | op_eq.

Definition comparator : Type := operator * SemVer.

Definition release (x y z : N) : SemVer :=
  {| major := x; minor := y; patch := z; prerelease := [] |}.

(** The lowest pre-release of [x.y.z], written [x.y.z-0]. *)
Definition floor (x y z : N) : SemVer :=
  {| major := x; minor := y; patch := z; prerelease := [Numeric 0] |}.

Definition caret (v : SemVer) : list comparator :=
  let upper :=
    if (0 <? major v)%N then floor (major v + 1) 0 0
    else if (0 <? minor v)%N then floor 0 (minor v + 1) 0
    else floor 0 0 (patch v + 1) in
  [(op_gte, v); (op_lt, upper)].

Definition tilde (v : SemVer) : list comparator :=
  [(op_gte, v); (op_lt, floor (major v) (minor v + 1) 0)].

Definition parse_primitive (s : string) : option (list comparator) :=
  let version_after (rest : string) (f : SemVer -> list comparator) :=
    f <$> parse_version rest in
  match trim s with
  | String "^" rest => version_after rest caret
  | String "~" rest => version_after rest tilde
  | String ">" (String "=" rest) => version_after rest (fun v => [(op_gte, v)])
  | String "<" (String "=" rest) => version_after rest (fun v => [(op_lte, v)])
  | String ">" rest => version_after rest (fun v => [(op_gt, v)])
  | String "<" rest => version_after rest (fun v => [(op_lt, v)])
  | String "=" rest => version_after rest (fun v => [(op_eq, v)])
  | rest => version_after rest (fun v => [(op_eq, v)])
  end.

Definition holds (v : SemVer) (c : comparator) : bool :=
  match c.1, compare v c.2 with
  | op_gte, (Gt | Eq) => true
  | op_gt, Gt => true
  | op_lte, (Lt | Eq) => true
  | op_lt, Lt => true
  | op_eq, Eq => true
  | _, _ => false
  end.

Definition same_tuple (a b : SemVer) : bool :=
  ((major a =? major b) && (minor a =? minor b) && (patch a =? patch b))%N.

(** Every comparator holds, and a pre-release is only let in by a comparator
    that names a pre-release of the same [major.minor.patch]. *)
Definition test_comparators (r : list comparator) (v : SemVer) : bool :=
  forallb (holds v) r &&
  match prerelease v with
  | [] => true
  | _ :: _ =>
      existsb (fun c => match prerelease c.2 with
                        | [] => false
                        | _ :: _ => same_tuple c.2 v
                        end) r
  end.

Definition strict : Grammar := {|
  parse := parse_version;
  invalid := fun v =>
    "Invalid Version: " +:+
    match ToString v with Ok text => text | Throw _ => "" end;
  Range := list comparator;
  parseRange := parse_primitive;
  testSet := test_comparators
|}.

End semver.

(** ** [src/checker.js]: the outdated-set builder *)

(** The ES-module copy of this file differs in two places that change
    nothing: it first rejects an empty or non-string manifest path, which
    [path.join] never produces, and [detectPackageManager] checks the
    working directory.  One embedding serves both. *)

Module checker.

(** The parsed manifest, as far as the checker reads it.  A bucket is [None]
    when the property is missing or falsy (the [|| {}] and [&&] guards),
    and an ordinary object otherwise; the values are whatever JSON put
    there.  A manifest whose bucket is a truthy value of another kind (an
    array, a string, a number) has no counterpart here. *)
Record packageJson := {
  dependencies : option object;
  devDependencies : option object;
  peerDependencies : option object
}.

(** One element of the returned array. *)
Record outdated := {
  name : string;
  current : string;
  latest : value;
  wanted : string;
  type : string
}.

(** What the outside answers during one call.  The manifest is the file
    [package.json] of the working directory. *)
Record World := {
  (** [fs.access(packageJsonPath, F_OK)] *)
  access : result unit;
  (** [fs.readFile(packageJsonPath, 'utf8')] *)
  readFile : result string;
  (** [JSON.parse] on the manifest text *)
  JSON_parse_manifest : string -> result packageJson;
  (** [execSync(command, ...)]: standard output, or the error of a failed,
      killed or timed-out child *)
  execSync : string -> result string;
  (** [JSON.parse] on the output of a child *)
  JSON_parse : string -> result value
}.

(** The state is the console: the warnings printed so far, as plain text
    (the colour that [chalk] wraps around them is left out). *)
Abbreviation console := (list string).

Definition warn (msg : string) : M console unit :=
  fun out => (Ok tt, out ++ [msg]).

Definition is_range_operator (c : ascii) : bool :=
  existsb (Ascii.eqb c) ["^"; "~"; ">"; "="; "<"]%char.

(** [s.replace(/^[\^~>=<]+/, '')]. *)
Fixpoint strip_range_operators (s : string) : string :=
  match s with
  | String c s' => if is_range_operator c then strip_range_operators s' else s
  | EmptyString => s
  end.

(** [{ ...target, ...(source || {}) }]. *)
Definition spread (target : object) (source : option object) : object :=
  fold_left (fun t kv => obj_set t kv.1 kv.2) (own_entries (default [] source)) target.

Definition allDeps (p : packageJson) : object :=
  spread (spread (spread [] (dependencies p)) (devDependencies p))
    (peerDependencies p).

(** [bucket && bucket[name]], as a condition. *)
Definition listed (bucket : option object) (name : string) : bool :=
  match bucket with
  | Some o => has_truthy o name
  | None => false
  end.

Definition dependencyType (p : packageJson) (name : string) : string :=
  if listed (devDependencies p) name then "dev"
  else if listed (peerDependencies p) name then "peer"
  else "prod".

(** Calling [startsWith] on something that is not a string. *)
Definition no_startsWith (v : value) : js_error :=
  match v with
  | VUndefined => Error "Cannot read properties of undefined (reading 'startsWith')"
  | VNull => Error "Cannot read properties of null (reading 'startsWith')"
  | _ => Error "currentVersion.startsWith is not a function"
  end.

Section with_world.
Context `{semver.Grammar} (w : World).

Definition getLatestVersion (packageName : string) : M console value :=
  try_catch
    (result <- lift (execSync w ("npm view " +:+ packageName +:+ " version --json"));;
     lift (JSON_parse w (trim result)))
    (fun _ =>
       warn ("Warning: Could not fetch latest version for " +:+ packageName);;;
       ret VNull).

(** The body of the inner [try]: the record to push, if any. *)
Definition check_entry (p : packageJson) (name currentVersion : string)
    : M console (option outdated) :=
  let cleanVersion := strip_range_operators currentVersion in
  latestVersion <- getLatestVersion name;;
  if truthy latestVersion then
    newer <- lift (semver.gt latestVersion (VStr cleanVersion));;
    if (newer : bool) then
      highest <- lift (semver.maxSatisfying [latestVersion] currentVersion);;
      let wantedVersion := or_else highest latestVersion in
      let type := dependencyType p name in
      text <- lift (ToString wantedVersion);;
      ret (Some {| name := name;
                   current := currentVersion;
                   latest := latestVersion;
                   wanted := "^" +:+ text;
                   type := type |})
    else ret None
  else ret None.

(** The inner [try ... catch] around that body. *)
Definition attempt (p : packageJson) (name currentVersion : string)
    : M console (option outdated) :=
  try_catch (check_entry p name currentVersion)
    (fun error =>
       warn ("Warning: Could not check updates for " +:+ name
             +:+ ": " +:+ message error);;;
       ret None).

(** The [for] loop over [Object.entries(allDeps)]; [found] is the array
    [outdated] so far. *)
Fixpoint scan (p : packageJson) (entries : list (string * value))
    (found : list outdated) : M console (list outdated) :=
  match entries with
  | [] => ret found
  | (name, VStr currentVersion) :: entries' =>
      if startsWith currentVersion "file:" || startsWith currentVersion "git+"
      then scan p entries' found
      else
        pushed <- attempt p name currentVersion;;
        scan p entries' (found ++ option_list pushed)
  | (_, other) :: _ => throw (no_startsWith other)
  end.

Definition checkDependencies : M console (list outdated) :=
  try_catch
    (lift (access w);;;
     text <- lift (readFile w);;
     p <- lift (JSON_parse_manifest w text);;
     scan p (own_entries (allDeps p)) [])
    (fun error =>
       throw (Error ("Error checking dependencies: " +:+ message error))).

End with_world.

End checker.


(** ** [src/security.js]: the vulnerability aggregator *)

Module security.

(** One element of the returned array.  The audit path of this file sets no
    [version]; reading it gives [undefined]. *)
Record vulnerability := {
  name : string;
  version : value;
  severity : value;
  title : value;
  url : value;
  vulnerable_versions : value;
  patched_versions : value;
  advisory : value
}.

(** What [fetch] resolves to. *)
Record response := {
  ok : bool;
  http_status : N;
  (** [response.json()] *)
  json : result value
}.

(** What the outside answers during one run. *)
Record World := {
  (** [execSync('npm audit --json', { stdio: 'ignore' })] in [hasNpmAudit] *)
  npm_audit_probe : result unit;
  (** [execSync('npm audit --json', { encoding: 'utf8' })] in
      [checkWithNpmAudit] *)
  npm_audit : result string;
  (** [fs.readFile(packageJsonPath, 'utf8')] *)
  readFile : result string;
  (** [JSON.parse] on the manifest text *)
  JSON_parse_manifest : string -> result checker.packageJson;
  (** [fetch(url, ...)], given how many requests went out before; a
      rejected promise is a [Throw] *)
  fetch : nat -> string -> result response;
  (** [JSON.parse] on the output of the audit *)
  JSON_parse : string -> result value
}.

(** The process state: the console, the module-level [vulnerabilityCache],
    and the requests that went out to the registry, oldest first. *)
Record state := {
  console : list string;
  vulnerabilityCache : gmap string (list vulnerability);
  requests : list string
}.

(** The state a process starts with: [new Map()], nothing printed, nothing
    requested. *)
Definition fresh : state :=
  {| console := []; vulnerabilityCache := ∅; requests := [] |}.

Definition warn (msg : string) : M state unit :=
  fun s => (Ok tt, {| console := console s ++ [msg];
                      vulnerabilityCache := vulnerabilityCache s;
                      requests := requests s |}).

(** [vulnerabilityCache.has(key)] and [.get(key)]. *)
Definition cache_get (key : string) : M state (option (list vulnerability)) :=
  fun s => (Ok (vulnerabilityCache s !! key), s).

(** [vulnerabilityCache.set(key, found)]. *)
Definition cache_set (key : string) (found : list vulnerability) : M state unit :=
  fun s => (Ok tt, {| console := console s;
                      vulnerabilityCache := <[key := found]> (vulnerabilityCache s);
                      requests := requests s |}).

Section with_world.
Context (w : World).

(** One request to the registry. *)
Definition send (target : string) : M state response :=
  fun s => (fetch w (length (requests s)) target,
            {| console := console s;
               vulnerabilityCache := vulnerabilityCache s;
               requests := requests s ++ [target] |}).

Definition hasNpmAudit : M state bool :=
  try_catch (lift (npm_audit_probe w);;; ret true) (fun _ => ret false).

(** [Array.isArray(via) ? via[0] : via]. *)
Definition first_cause (via : value) : value :=
  match via with
  | VArr l => default VUndefined (head l)
  | _ => via
  end.

(** The record the audit loop pushes for one entry, if it pushes one. *)
Definition audit_record (name : string) (data : value)
    : result (option vulnerability) :=
  via <~ get data "via";;
  if truthy via then
    let vuln := first_cause via in
    if truthy vuln then
      severity <~ get data "severity";;
      title <~ get vuln "title";;
      url <~ get vuln "url";;
      range <~ get data "range";;
      fixedIn <~ get vuln "fixedIn";;
      patched <~ (if truthy fixedIn
                  then text <~ ToString fixedIn;; Ok (VStr (">=" +:+ text))
                  else Ok (VStr "No fix available"));;
      advisory <~ get vuln "advisory";;
      Ok (Some {| name := name;
                  version := VUndefined;
                  severity := severity;
                  title := or_else title (VStr "Unknown vulnerability");
                  url := or_else url (VStr "");
                  vulnerable_versions := or_else range (VStr "*");
                  patched_versions := patched;
                  advisory := or_else advisory (VStr "") |})
    else Ok None
  else Ok None.

(** A loop that pushes what [body] gives for each element and stops at the
    first exception. *)
Fixpoint collect {A B} (body : A -> result (list B)) (xs : list A)
    : result (list B) :=
  match xs with
  | [] => Ok []
  | x :: xs' =>
      pushed <~ body x;;
      rest <~ collect body xs';;
      Ok (pushed ++ rest)
  end.

(** The body of the [try] in [checkWithNpmAudit], after the command ran. *)
Definition audit_findings (output : string) : result (list vulnerability) :=
  audit <~ JSON_parse w output;;
  found <~ get audit "vulnerabilities";;
  if negb (truthy found) then Ok []
  else
    entries <~ Object_entries found;;
    collect (fun entry => pushed <~ audit_record entry.1 entry.2;;
                          Ok (option_list pushed)) entries.

Definition checkWithNpmAudit : M state (list vulnerability) :=
  try_catch
    (output <- lift (npm_audit w);;
     lift (audit_findings output))
    (fun error => throw (Error ("Failed to run npm audit: " +:+ message error))).

(** The record the registry loop pushes for one advisory. *)
Definition registry_record (name version : string) (vuln : value)
    : result vulnerability :=
  severity <~ get vuln "severity";;
  title <~ get vuln "title";;
  url <~ get vuln "url";;
  link <~ (if truthy url then Ok url
           else id <~ get vuln "id";;
                text <~ ToString id;;
                Ok (VStr ("https://www.npmjs.com/advisories/" +:+ text)));;
  vulnerable <~ get vuln "vulnerable_versions";;
  patched <~ get vuln "patched_versions";;
  overview <~ get vuln "overview";;
  Ok {| name := name;
        version := VStr version;
        severity := or_else severity (VStr "moderate");
        title := or_else title (VStr "Unknown vulnerability");
        url := link;
        vulnerable_versions := or_else vulnerable (VStr "*");
        patched_versions := or_else patched (VStr "No fix available");
        advisory := or_else overview (VStr "") |}.

(** What [getPackageVulnerabilities] reads out of a response body. *)
Definition registry_findings (name version : string) (data : value)
    : result (list vulnerability) :=
  found <~ get data "vulnerabilities";;
  if truthy found then
    vulns <~ Object_values found;;
    collect (fun vuln => pushed <~ registry_record name version vuln;;
                         Ok [pushed]) vulns
  else Ok [].

Definition registry_url (name version : string) : string :=
  "https://registry.npmjs.org/" +:+ name +:+ "/" +:+ version.

Definition getPackageVulnerabilities (name version : string)
    : M state (list vulnerability) :=
  let cacheKey := name +:+ "@" +:+ version in
  cached <- cache_get cacheKey;;
  match cached with
  | Some found => ret found
  | None =>
      try_catch
        (response <- send (registry_url name version);;
         if negb (ok response)
         then throw (Error ("HTTP " +:+ pretty (http_status response)))
         else
           data <- lift (json response);;
           vulnerabilities <- lift (registry_findings name version data);;
           cache_set cacheKey vulnerabilities;;;
           ret vulnerabilities)
        (fun error =>
           warn ("Warning: Could not fetch vulnerability data for " +:+ name
                 +:+ "@" +:+ version +:+ ": " +:+ message error);;;
           ret [])
  end.

(** The loop of [checkWithNpmRegistry]. *)
Fixpoint visit (entries : list (string * value)) (found : list vulnerability)
    : M state (list vulnerability) :=
  match entries with
  | [] => ret found
  | (name, VStr version) :: entries' =>
      if startsWith version "file:" || startsWith version "git+"
      then visit entries' found
      else
        pushed <- try_catch (getPackageVulnerabilities name version)
                    (fun error =>
                       warn ("Warning: Could not check vulnerabilities for "
                             +:+ name +:+ "@" +:+ version +:+ ": "
                             +:+ message error);;;
                       ret []);;
        visit entries' (found ++ pushed)
  | (_, _) :: entries' => visit entries' found
  end.

Definition checkWithNpmRegistry : M state (list vulnerability) :=
  try_catch
    (text <- lift (readFile w);;
     p <- lift (JSON_parse_manifest w text);;
     visit (own_entries (checker.allDeps p)) [])
    (fun error =>
       throw (Error ("Failed to check vulnerabilities: " +:+ message error))).

Definition checkVulnerabilities : M state (list vulnerability) :=
  try_catch
    (available <- hasNpmAudit;;
     if (available : bool) then checkWithNpmAudit else checkWithNpmRegistry)
    (fun error =>
       warn ("Warning: Could not check for vulnerabilities: " +:+ message error);;;
       ret []).

End with_world.

End security.

(** ** The ES-module copy of [security.js] *)

(** This copy has no registry fallback and never touches the cache it
    declares: it runs the audit once, and reads the output attached to a
    failed audit. *)

Module security_esm.
Export security (vulnerability).

Record World := {
  (** [process.cwd()] *)
  cwd : result string;
  (** [execSync('npm audit --json', { encoding: 'utf8', stdio: [...],
      timeout: 10000 })] *)
  npm_audit : result string;
  (** [JSON.parse] *)
  JSON_parse : string -> result value;
  (** whether [StringToNumber] of a string is above zero *)
  string_positive : string -> bool
}.

Abbreviation console := (list string).

(** [v.length] of a truthy value. *)
Definition length_of (v : value) : value :=
  match v with
  | VArr l =>
      VNum {| num_sign := match l with [] => Eq | _ :: _ => Gt end;
              num_text := pretty (length l) |}
  | VStr s =>
      VNum {| num_sign := match s with EmptyString => Eq | String _ _ => Gt end;
              num_text := pretty (String.length s) |}
  | VObj o => default VUndefined (obj_get o "length")
  | _ => VUndefined
  end.

(** [v[0]] of a truthy value. *)
Definition first_of (v : value) : value :=
  match v with
  | VArr l => default VUndefined (head l)
  | VStr (String c _) => VStr (String c EmptyString)
  | VObj o => default VUndefined (obj_get o "0")
  | _ => VUndefined
  end.

Section with_world.
Context (w : World).

(** The record the loop of the [try] pushes for one entry, if any. *)
Definition audit_record (name : string) (data : value)
    : result (option vulnerability) :=
  via <~ get data "via";;
  listed <~ (if truthy via then gt_zero (string_positive w) (length_of via)
             else Ok false);;
  if (listed : bool) then
    let vuln := first_of via in
    if truthy vuln && String.eqb (typeof vuln) "object" then
      severity <~ get data "severity";;
      title <~ get vuln "title";;
      url <~ get vuln "url";;
      range <~ get data "range";;
      fixedIn <~ get vuln "fixedIn";;
      patched <~ (if truthy fixedIn
                  then text <~ ToString fixedIn;; Ok (VStr (">=" +:+ text))
                  else Ok (VStr "No fix available"));;
      advisory <~ get vuln "advisory";;
      version <~ get data "version";;
      Ok (Some {| security.name := name;
                  security.severity := or_else severity (VStr "moderate");
                  security.title := or_else title (VStr "Unknown vulnerability");
                  security.url := or_else url (VStr "");
                  security.vulnerable_versions := or_else range (VStr "*");
                  security.patched_versions := patched;
                  security.advisory := or_else advisory (VStr "");
                  security.version := or_else version (VStr "unknown") |})
    else Ok None
  else Ok None.

(** The body of the [try], after the command ran. *)
Definition audit_findings (output : string) : result (list vulnerability) :=
  audit <~ JSON_parse w output;;
  found <~ get audit "vulnerabilities";;
  if negb (truthy found) then Ok []
  else
    entries <~ Object_entries found;;
    match entries with
    | [] => Ok []
    | _ :: _ =>
        security.collect
          (fun entry => pushed <~ audit_record entry.1 entry.2;;
                        Ok (option_list pushed)) entries
    end.

(** The record built from the output of a failed audit. *)
Definition failure_record (name : string) (data : value) : result vulnerability :=
  severity <~ get data "severity";;
  range <~ get data "range";;
  Ok {| security.name := name;
        security.severity := or_else severity (VStr "moderate");
        security.title := VStr "Security vulnerability detected";
        security.url := VStr "";
        security.vulnerable_versions := or_else range (VStr "*");
        security.patched_versions := VStr "Run npm audit fix";
        security.advisory := VStr "Run npm audit for details";
        security.version := VStr "unknown" |}.

(** The inner [try] of the handler: [Some] is a [return], [None] falls
    through to the warning. *)
Definition failure_findings (error : js_error)
    : result (option (list vulnerability)) :=
  match stdout error with
  | Some (String c rest) =>
      audit <~ JSON_parse w (String c rest);;
      found <~ get audit "vulnerabilities";;
      if truthy found then
        entries <~ Object_entries found;;
        vulnerabilities <~
          security.collect
            (fun entry => pushed <~ failure_record entry.1 entry.2;;
                          Ok [pushed]) entries;;
        Ok (Some vulnerabilities)
      else Ok None
  | _ => Ok None
  end.

(** [error.stdout && error.stdout.includes(text)], and the same on
    [error.message]. *)
Definition mentions (field : option string) (text : string) : bool :=
  match field with
  | Some (String c rest) => includes (String c rest) text
  | _ => false
  end.

(** The [catch] of [checkWithNpmAudit]. *)
Definition failed_audit (error : js_error) : M console (list vulnerability) :=
  if mentions (stdout error) "found 0 vulnerabilities" then ret []
  else if mentions (Some (message error)) "found 0 vulnerabilities" then ret []
  else
    parsed <-
      (if bool_decide (status error = Some 1%Z)
          && includes (message error) "npm audit"
       then try_catch (lift (failure_findings error)) (fun _ => ret (Some []))
       else ret None);;
    match parsed with
    | Some vulnerabilities => ret vulnerabilities
    | None =>
        checker.warn "Warning: npm audit failed, skipping vulnerability check";;;
        ret []
    end.

Definition checkWithNpmAudit : M console (list vulnerability) :=
  try_catch
    (output <- lift (npm_audit w);;
     lift (audit_findings output))
    failed_audit.

Definition checkVulnerabilities : M console (list vulnerability) :=
  try_catch
    (directory <- lift (cwd w);;
     if String.eqb directory ""
     then
       checker.warn
         "Warning: Invalid working directory, skipping vulnerability check";;;
       ret []
     else checkWithNpmAudit)
    (fun error =>
       checker.warn ("Warning: Could not run npm audit: " +:+ message error);;;
       ret []).

End with_world.

End security_esm.

(** ** [detectPackageManager], the other function of the checker *)

Module manager.

(** What the outside answers: the working directory, what [path.join]
    makes of a directory and a file name on this platform, and which paths
    exist. *)
Record World := {
  (** [process.cwd()] *)
  cwd : result string;
  (** [path.join(directory, name)] *)
  path_join : string -> string -> string;
  (** [fs.existsSync(path)] *)
  existsSync : string -> bool
}.

Section with_world.
Context (w : World).

(** The CommonJS copy, [src/checker.js]. *)
Definition detectPackageManager_cjs : result string :=
  directory <~ cwd w;;
  if existsSync w (path_join w directory "yarn.lock") then Ok "yarn"
  else if existsSync w (path_join w directory "pnpm-lock.yaml") then Ok "pnpm"
  else Ok "npm".

(** The ES-module copy, which first looks at the working directory. *)
Definition detectPackageManager : M checker.console string :=
  directory <- lift (cwd w);;
  if String.eqb directory ""
  then
    checker.warn "Warning: Invalid working directory, defaulting to npm";;;
    ret "npm"
  else if existsSync w (path_join w directory "yarn.lock") then ret "yarn"
  else if existsSync w (path_join w directory "pnpm-lock.yaml") then ret "pnpm"
  else ret "npm".

End with_world.

End manager.

(** ** [updater.js]: applying the outdated records to the manifest *)

Module updater.
Import checker.

(** [{ auto = false, dev = false, peer = false } = options]. *)
Record options := {
  auto : bool;
  dev : bool;
  peer : bool
}.

(** The three buckets [updateDependenciesInPackageJson] is called on. *)
Inductive depType := in_dependencies | in_devDependencies | in_peerDependencies.

Definition depType_key (d : depType) : string :=
  match d with
  | in_dependencies => "dependencies"
  | in_devDependencies => "devDependencies"
  | in_peerDependencies => "peerDependencies"
  end.

(** [packageJson[depType]]. *)
Definition bucket_of (p : packageJson) (d : depType) : option object :=
  match d with
  | in_dependencies => dependencies p
  | in_devDependencies => devDependencies p
  | in_peerDependencies => peerDependencies p
  end.

(** [packageJson[depType] = bucket]. *)
Definition with_bucket (p : packageJson) (d : depType) (bucket : object)
    : packageJson :=
  match d with
  | in_dependencies =>
      {| dependencies := Some bucket;
         devDependencies := devDependencies p;
         peerDependencies := peerDependencies p |}
  | in_devDependencies =>
      {| dependencies := dependencies p;
         devDependencies := Some bucket;
         peerDependencies := peerDependencies p |}
  | in_peerDependencies =>
      {| dependencies := dependencies p;
         devDependencies := devDependencies p;
         peerDependencies := Some bucket |}
  end.

(** What the outside answers during one call. *)
Record World := {
  (** working directory, [path.join] and [fs.existsSync] *)
  platform : manager.World;
  (** [fs.readFile(path, 'utf8')] *)
  readFile : string -> result string;
  (** [JSON.parse] on the manifest text *)
  JSON_parse_manifest : string -> result packageJson;
  (** [inquirer.prompt] over the given records: the [selected] ones *)
  prompt : list outdated -> result (list outdated);
  (** [fs.writeFile(path, JSON.stringify(document, null, 2) + '\n', 'utf8')] *)
  writeFile : string -> packageJson -> result unit;
  (** [execSync(command, { stdio: 'inherit' })] *)
  execSync : string -> result unit
}.

(** The process state: the lines printed so far (to either stream, as plain
    text), the manifests written and the commands run, oldest first. *)
Record state := {
  console : list string;
  written : list (string * packageJson);
  commands : list string
}.

Definition fresh : state := {| console := []; written := []; commands := [] |}.

(** [console.log], [console.warn] and [console.error]. *)
Definition print (line : string) : M state unit :=
  fun s => (Ok tt, {| console := console s ++ [line];
                      written := written s;
                      commands := commands s |}).

(** A computation that only prints, run in the process. *)
Definition printing {A} (m : M checker.console A) : M state A :=
  fun s =>
    let (r, out) := m (console s) in
    (r, {| console := out; written := written s; commands := commands s |}).

(** [version.match(...)[0]] for the expression of the source, which matches
    the leading run of the characters [~ ^ > = <], possibly an empty one,
    and so never fails. *)
Fixpoint getVersionPrefix (version : string) : string :=
  match version with
  | String c version' =>
      if is_range_operator c then String c (getVersionPrefix version')
      else EmptyString
  | EmptyString => EmptyString
  end.

Definition newline : string := String "010" EmptyString.

Section with_world.
Context (w : World).

Definition save (path : string) (document : packageJson) : M state unit :=
  fun s =>
    match writeFile w path document with
    | Ok _ => (Ok tt, {| console := console s;
                         written := written s ++ [(path, document)];
                         commands := commands s |})
    | Throw e => (Throw e, s)
    end.

Definition run (command : string) : M state unit :=
  fun s => (execSync w command,
            {| console := console s;
               written := written s;
               commands := commands s ++ [command] |}).

(** The body of the loop of [updateDependenciesInPackageJson] on the bucket.
    A name the bucket does not hold reads as [undefined], or as a function
    when [Object.prototype] has it; anything truthy that is not a string has
    no [match]. *)
Definition update_entry (d : depType) (bucket : object) (pkg : outdated)
    : M state object :=
  match obj_get bucket (name pkg) with
  | Some (VStr currentVersion) =>
      if String.eqb currentVersion "" then ret bucket
      else
        let prefix := getVersionPrefix currentVersion in
        text <- lift (ToString (latest pkg));;
        print ("✓ Updated " +:+ name pkg +:+ " from " +:+ currentVersion
               +:+ " to " +:+ prefix +:+ text
               +:+ " (" +:+ depType_key d +:+ ")");;;
        ret (obj_set bucket (name pkg) (VStr (prefix +:+ text)))
  | Some other =>
      if truthy other then throw (Error "version.match is not a function")
      else ret bucket
  | None =>
      if inherited (name pkg)
      then throw (Error "version.match is not a function")
      else ret bucket
  end.

Fixpoint update_entries (d : depType) (bucket : object) (updates : list outdated)
    : M state object :=
  match updates with
  | [] => ret bucket
  | pkg :: updates' =>
      bucket' <- update_entry d bucket pkg;;
      update_entries d bucket' updates'
  end.

(** The manifest is changed in place; here the changed manifest is
    returned. *)
Definition updateDependenciesInPackageJson (p : packageJson) (d : depType)
    (updates : list outdated) : M state packageJson :=
  bucket <- update_entries d (default [] (bucket_of p d)) updates;;
  ret (with_bucket p d bucket).

Definition of_type (type : string) (updates : list outdated) : list outdated :=
  filter (λ pkg, checker.type pkg = type) updates.

Definition nonempty {A} (l : list A) : bool :=
  match l with [] => false | _ :: _ => true end.

Definition install_command (packageManager : string) : string :=
  if String.eqb packageManager "yarn" then "yarn install"
  else if String.eqb packageManager "pnpm" then "pnpm install"
  else "npm install".

(** The three guarded calls of [updateDependenciesInPackageJson]. *)
Definition apply_updates (o : options) (p : packageJson)
    (updates : list outdated) : M state packageJson :=
  p <- (if nonempty (of_type "prod" updates)
        then updateDependenciesInPackageJson p in_dependencies
               (of_type "prod" updates)
        else ret p);;
  p <- (if dev o && nonempty (of_type "dev" updates)
        then updateDependenciesInPackageJson p in_devDependencies
               (of_type "dev" updates)
        else ret p);;
  if peer o && nonempty (of_type "peer" updates)
  then updateDependenciesInPackageJson p in_peerDependencies
         (of_type "peer" updates)
  else ret p.

(** The flag [updated] after those calls. *)
Definition updated (o : options) (updates : list outdated) : bool :=
  nonempty (of_type "prod" updates)
  || dev o && nonempty (of_type "dev" updates)
  || peer o && nonempty (of_type "peer" updates).

(** The inner [try ... catch] around the install command. *)
Definition install (packageManager : string) : M state unit :=
  try_catch
    (run (install_command packageManager);;;
     print "✓ Successfully updated dependencies!")
    (fun error =>
       print (newline +:+ "Error installing updated dependencies:");;;
       print (message error);;;
       print (newline +:+ "You may need to manually run `npm install` to complete the update.")).

(** The body of the outer [try]. *)
Definition update_manifest (packageJsonPath packageManager : string)
    (outdated : list outdated) (o : options) : M state unit :=
  text <- lift (readFile w packageJsonPath);;
  p <- lift (JSON_parse_manifest w text);;
  updates <- (if auto o then ret outdated else lift (prompt w outdated));;
  match updates with
  | [] => print "No packages selected for update."
  | _ :: _ =>
      p <- apply_updates o p updates;;
      if updated o updates
      then
        save packageJsonPath p;;;
        print "✓ Updated package.json";;;
        print "Installing updated dependencies...";;;
        install packageManager
      else print "No updates were made."
  end.

Definition updateDependencies (outdated : list outdated) (o : options)
    : M state unit :=
  directory <- lift (manager.cwd (platform w));;
  if String.eqb directory "" then throw (Error "Invalid working directory")
  else
    packageManager <- printing (manager.detectPackageManager (platform w));;
    let packageJsonPath :=
      manager.path_join (platform w) directory "package.json" in
    if String.eqb packageJsonPath "" then throw (Error "Invalid package.json path")
    else
      try_catch
        (update_manifest packageJsonPath packageManager outdated o)
        (fun error =>
           throw (Error ("Failed to update dependencies: " +:+ message error))).

End with_world.

End updater.

(** * The vocabulary of the statements *)

(** Everything the checker runs only ever appends to the console, and what
    it returns does not depend on what was printed before. *)
Definition appends {A} (m : M checker.console A) : Prop :=
  ∀ out, m out = ((m []).1, out ++ (m []).2).

(** The entries the loop skips without a query. *)
Definition skipped (currentVersion : string) : bool :=
  startsWith currentVersion "file:" || startsWith currentVersion "git+".

(** The command line of the query for one package. *)
Definition view_command (name : string) : string :=
  "npm view " +:+ name +:+ " version --json".

Section checker_terms.
Context `{semver.Grammar} (w : checker.World).
Import checker.

(** [name] with range [cv] yields the record [r]. *)
Definition yields (p : packageJson) (name cv : string) (r : outdated) : Prop :=
  (check_entry w p name cv []).1 = Ok (Some r).

(** The record the loop builds for [name], declared as [cv], when the
    registry answers [l]. *)
Definition record_of (p : packageJson) (name cv l : string) : outdated :=
  {| name := name;
     current := cv;
     latest := VStr l;
     wanted := "^" +:+ l;
     type := dependencyType p name |}.


(** The manifest is there, readable, and parses to [p]. *)
Definition loads (p : packageJson) : Prop :=
  ∃ text, access w = Ok tt ∧ readFile w = Ok text ∧
          JSON_parse_manifest w text = Ok p.

End checker_terms.

Section merge_terms.
Import checker.

Definition set_entry (t : object) (kv : string * value) : object :=
  obj_set t kv.1 kv.2.

(** Every bucket that is present has each key once, as parsed JSON does. *)
Definition well_formed (p : packageJson) : Prop :=
  NoDup (default [] (dependencies p)).*1 ∧
  NoDup (default [] (devDependencies p)).*1 ∧
  NoDup (default [] (peerDependencies p)).*1.

Definition own (bucket : option object) (name : string) : option value :=
  bucket ≫= (λ o, obj_get o name).

(** The range the merged object holds for a name: the one of the bucket
    merged last among those that have the name. *)
Definition declared (p : packageJson) (name : string) : option value :=
  match own (peerDependencies p) name with
  | Some v => Some v
  | None =>
      match own (devDependencies p) name with
      | Some v => Some v
      | None => own (dependencies p) name
      end
  end.

End merge_terms.

Section security_terms.
Context (w : security.World).
Import security.

Definition cache_key (name version : string) : string :=
  name +:+ "@" +:+ version.

(** The state after one more request to [target]. *)
Definition requested (s : state) (target : string) : state :=
  {| console := console s;
     vulnerabilityCache := vulnerabilityCache s;
     requests := requests s ++ [target] |}.

(** What a request that is not in the cache ends in. *)
Definition answer (name version : string) (reply : result response)
    : result (list vulnerability) :=
  response <~ reply;;
  if negb (ok response)
  then Throw (Error ("HTTP " +:+ pretty (http_status response)))
  else data <~ json response;; registry_findings name version data.

(** Any further requests of the run, one after the other. *)
Definition request_each (pairs : list (string * string)) : M state unit :=
  for_of pairs (fun pair =>
                  getPackageVulnerabilities w pair.1 pair.2;;; ret tt).

(** The registry is of no use: every request is rejected, answered with an
    error status, or answered with a body that cannot be read. *)
Definition registry_unusable : Prop :=
  ∀ n target name version,
    is_ok (answer name version (fetch w n target)) = false.

End security_terms.

(** ** Documents *)

Module documents.

Definition quote : string := String "034" EmptyString.
Definition newline : string := String "010" EmptyString.

(** The JSON text of a value without escapes in its strings; it is used to
    write down what a command printed. *)
Fixpoint stringify (v : value) : string :=
  match v with
  | VUndefined | VNull => "null"
  | VBool b => if b then "true" else "false"
  | VNum n => num_text n
  | VStr s => quote +:+ s +:+ quote
  | VArr l =>
      "[" +:+
      (fix items (l : list value) : string :=
         match l with
         | [] => ""
         | [x] => stringify x
         | x :: l' => stringify x +:+ "," +:+ items l'
         end) l +:+ "]"
  | VObj o =>
      "{" +:+
      (fix members (o : list (string * value)) : string :=
         match o with
         | [] => ""
         | [(k, x)] => quote +:+ k +:+ quote +:+ ":" +:+ stringify x
         | (k, x) :: o' =>
             quote +:+ k +:+ quote +:+ ":" +:+ stringify x +:+ "," +:+ members o'
         end) o +:+ "}"
  end.

(** A [JSON.parse] that knows the given documents. *)
Definition parse_known (documents : list value) (text : string) : result value :=
  match find (λ v, String.eqb text (stringify v)) documents with
  | Some v => Ok v
  | None => Throw (Error "Unexpected token in JSON")
  end.

(** The manifest as a JSON value, and its text. *)
Definition manifest_value (p : checker.packageJson) : value :=
  let bucket (key : string) (o : option object) : object :=
    match o with
    | Some members => [(key, VObj members)]
    | None => []
    end in
  VObj ([("name", VStr "app"); ("version", VStr "1.0.0")]
        ++ bucket "dependencies" (checker.dependencies p)
        ++ bucket "devDependencies" (checker.devDependencies p)
        ++ bucket "peerDependencies" (checker.peerDependencies p)).

Definition manifest_text (p : checker.packageJson) : string :=
  stringify (manifest_value p).

(** A [JSON.parse] that knows the text of one manifest. *)
Definition parse_manifest (p : checker.packageJson) (text : string)
    : result checker.packageJson :=
  if String.eqb text (manifest_text p) then Ok p
  else Throw (Error "Unexpected token in JSON").

End documents.

(** ** Worked runs of the checker *)

Module runs.
Import checker documents.

(** [JSON.parse] on what [npm view <name> version --json] prints for one
    version: a string literal without escapes. *)
Definition parse_string_literal (text : string) : result value :=
  match text with
  | String "034" rest =>
      match semver.cut "034" rest with
      | (body, Some EmptyString) => Ok (VStr body)
      | _ => Throw (Error "Unexpected token in JSON")
      end
  | _ => Throw (Error "Unexpected token in JSON")
  end.

(** A registry that knows the latest version of some packages; the command
    fails for every other name. *)
Definition npm_view (registry : list (string * string)) (command : string)
    : result string :=
  match find (λ entry, String.eqb command (view_command entry.1)) registry with
  | Some (_, version) => Ok (quote +:+ version +:+ quote +:+ newline)
  | None =>
      Throw {| message := "Command failed: " +:+ command;
               status := Some 1%Z;
               stdout := Some "" |}
  end.

Definition world (p : packageJson) (registry : list (string * string)) : World :=
  {| access := Ok tt;
     readFile := Ok (manifest_text p);
     JSON_parse_manifest := parse_manifest p;
     execSync := npm_view registry;
     JSON_parse := parse_string_literal |}.

Definition run (p : packageJson) (registry : list (string * string))
    : result (list outdated) * console :=
  checkDependencies (H := semver.strict) (world p registry) [].

(** [{"dependencies": {"left-pad": "^1.2.0"}}]. *)
Definition caret_1_2_0 : packageJson :=
  {| dependencies := Some [("left-pad", VStr "^1.2.0")];
     devDependencies := None;
     peerDependencies := None |}.

(** [lodash] is both a production and a development dependency. *)
Definition in_two_buckets : packageJson :=
  {| dependencies := Some [("lodash", VStr "^4.17.0")];
     devDependencies := Some [("lodash", VStr "~4.16.0")];
     peerDependencies := None |}.


(** [react] is declared in all three buckets. *)
Definition in_three_buckets : packageJson :=
  {| dependencies := Some [("react", VStr "^17.0.0")];
     devDependencies := Some [("react", VStr "^18.0.0")];
     peerDependencies := Some [("react", VStr "^16.8.0")] |}.

(** Two dependencies: the registry has nothing newer for the first and a
    new major version for the second. *)
Definition newer_and_equal : packageJson :=
  {| dependencies := Some [("left-pad", VStr "^1.2.0"); ("chalk", VStr "^4.1.0")];
     devDependencies := None;
     peerDependencies := None |}.

End runs.

(** ** Documents and worlds for worked runs of the aggregator *)

Module reports.
Import documents security.

(** An audit report with one finding that carries no severity. *)
Definition report_without_severity : value :=
  VObj [("auditReportVersion", VNum {| num_sign := Gt; num_text := "2" |});
        ("vulnerabilities",
         VObj [("minimist",
                VObj [("name", VStr "minimist");
                      ("via", VArr [VObj [("title", VStr "Prototype Pollution");
                                          ("url", VStr "https://github.com/advisories/GHSA-xvch-5gv4-984h")]]);
                      ("range", VStr "<1.2.6")])])].

(** An audit report with one finding of high severity. *)
Definition report_high : value :=
  VObj [("auditReportVersion", VNum {| num_sign := Gt; num_text := "2" |});
        ("vulnerabilities",
         VObj [("minimist",
                VObj [("name", VStr "minimist");
                      ("severity", VStr "high");
                      ("via", VArr [VObj [("title", VStr "Prototype Pollution");
                                          ("url", VStr "https://github.com/advisories/GHSA-xvch-5gv4-984h")]]);
                      ("range", VStr "<1.2.6")])])].

(** What [execSync] throws when the command exits with [code]. *)
Definition exit_error (code : Z) (output : option string) : js_error :=
  {| message := "Command failed: npm audit --json";
     status := Some code;
     stdout := output |}.

(** [{"dependencies": {"minimist": "1.2.5"}}]. *)
Definition pinned_minimist : checker.packageJson :=
  {| checker.dependencies := Some [("minimist", VStr "1.2.5")];
     checker.devDependencies := None;
     checker.peerDependencies := None |}.

(** The audit exits with 0 and prints [report]; the registry is not asked. *)
Definition audit_prints (report : value) : security.World :=
  {| security.npm_audit_probe := Ok tt;
     security.npm_audit := Ok (stringify report);
     security.readFile := Ok (manifest_text pinned_minimist);
     security.JSON_parse_manifest := parse_manifest pinned_minimist;
     security.fetch := fun _ _ => Throw (Error "request failed");
     security.JSON_parse := parse_known [report] |}.

(** The version document of the registry: it has no [vulnerabilities]. *)
Definition version_document : value :=
  VObj [("name", VStr "minimist"); ("version", VStr "1.2.5")].

(** The audit exits with 1, having printed [report]; the registry answers
    every request with the version document. *)
Definition audit_exits_1 (report : value) : security.World :=
  {| security.npm_audit_probe := Throw (exit_error 1 None);
     security.npm_audit := Throw (exit_error 1 (Some (stringify report)));
     security.readFile := Ok (manifest_text pinned_minimist);
     security.JSON_parse_manifest := parse_manifest pinned_minimist;
     security.fetch := fun _ _ =>
       Ok {| security.ok := true;
             security.http_status := 200;
             security.json := Ok version_document |};
     security.JSON_parse := parse_known [report] |}.

(** The same failed audit, as the ES-module copy meets it. *)
Definition esm_audit_exits_1 (report : value) : security_esm.World :=
  {| security_esm.cwd := Ok "/srv/app";
     security_esm.npm_audit := Throw (exit_error 1 (Some (stringify report)));
     security_esm.JSON_parse := parse_known [report];
     security_esm.string_positive := fun _ => false |}.

(** An audit that printed [report] and was then killed at the timeout: the
    error carries the output and no exit status. *)
Definition esm_audit_killed (report : value) : security_esm.World :=
  {| security_esm.cwd := Ok "/srv/app";
     security_esm.npm_audit :=
       Throw {| message := "spawnSync /bin/sh ETIMEDOUT";
                status := None;
                stdout := Some (stringify report) |};
     security_esm.JSON_parse := parse_known [report];
     security_esm.string_positive := fun _ => false |}.

(** The ES-module copy with an audit that exits with 0. *)
Definition esm_audit_prints (report : value) : security_esm.World :=
  {| security_esm.cwd := Ok "/srv/app";
     security_esm.npm_audit := Ok (stringify report);
     security_esm.JSON_parse := parse_known [report];
     security_esm.string_positive := fun _ => false |}.

(** No audit, and a registry that rejects every request. *)
Definition all_down : security.World :=
  {| security.npm_audit_probe := Throw (exit_error 127 None);
     security.npm_audit := Throw (exit_error 127 (Some ""));
     security.readFile := Ok (manifest_text pinned_minimist);
     security.JSON_parse_manifest := parse_manifest pinned_minimist;
     security.fetch := fun _ _ => Throw (Error "getaddrinfo ENOTFOUND registry.npmjs.org");
     security.JSON_parse := parse_known [] |}.

(** A registry whose first answer is an error page and whose later answers
    are an advisory document. *)
Definition advisory_document : value :=
  VObj [("name", VStr "minimist");
        ("vulnerabilities",
         VObj [("1179", VObj [("id", VNum {| num_sign := Gt; num_text := "1179" |});
                              ("title", VStr "Prototype Pollution")])])].

Definition recovering : security.World :=
  {| security.npm_audit_probe := Throw (exit_error 1 None);
     security.npm_audit := Throw (exit_error 1 (Some ""));
     security.readFile := Ok (manifest_text pinned_minimist);
     security.JSON_parse_manifest := parse_manifest pinned_minimist;
     security.fetch := fun n _ =>
       match n with
       | O => Ok {| security.ok := false;
                    security.http_status := 503;
                    security.json := Throw (Error "Unexpected token < in JSON") |}
       | S _ => Ok {| security.ok := true;
                      security.http_status := 200;
                      security.json := Ok advisory_document |}
       end;
     security.JSON_parse := parse_known [] |}.

(** The ES-module copy with nothing to run. *)
Definition esm_all_down : security_esm.World :=
  {| security_esm.cwd := Ok "/srv/app";
     security_esm.npm_audit := Throw (exit_error 127 (Some ""));
     security_esm.JSON_parse := parse_known [];
     security_esm.string_positive := fun _ => false |}.

(** The finding of [report_without_severity], as the audit path of
    [security.js] reports it. *)
Definition minimist_finding (severity : value) : security.vulnerability :=
  {| security.name := "minimist";
     version := VUndefined;
     severity := severity;
     title := VStr "Prototype Pollution";
     url := VStr "https://github.com/advisories/GHSA-xvch-5gv4-984h";
     vulnerable_versions := VStr "<1.2.6";
     patched_versions := VStr "No fix available";
     advisory := VStr "" |}.

(** The record the ES-module copy builds from the output of a failed audit. *)
Definition minimist_detected (severity : value) : vulnerability :=
  {| name := "minimist";
     version := VStr "unknown";
     severity := severity;
     title := VStr "Security vulnerability detected";
     url := VStr "";
     vulnerable_versions := VStr "<1.2.6";
     patched_versions := VStr "Run npm audit fix";
     advisory := VStr "Run npm audit for details" |}.

(** The advisory of [advisory_document], as the registry path reports it. *)
Definition minimist_advisory : vulnerability :=
  {| name := "minimist";
     version := VStr "1.2.5";
     severity := VStr "moderate";
     title := VStr "Prototype Pollution";
     url := VStr "https://www.npmjs.com/advisories/1179";
     vulnerable_versions := VStr "*";
     patched_versions := VStr "No fix available";
     advisory := VStr "" |}.

(** The state after one request that the registry turned down. *)
Definition after_failure : security.state :=
  (security.getPackageVulnerabilities recovering "minimist" "1.2.5" security.fresh).2.

End reports.

(** A computation of the updater that writes no file and runs no command. *)
Definition prints_only {A} (m : M updater.state A) : Prop :=
  ∀ s, updater.written (m s).2 = updater.written s ∧
       updater.commands (m s).2 = updater.commands s.


(** The packages a bucket of the manifest declares, in the order of the
    file; a missing bucket declares none. *)
Definition packages (p : checker.packageJson) (d : updater.depType)
    : list string :=
  (default [] (updater.bucket_of p d)).*1.

(** The records the updater works on: all of them with [auto], else the
    ones ticked at the prompt. *)
Definition selection (w : updater.World) (outdated : list checker.outdated)
    (o : updater.options) : result (list checker.outdated) :=
  if updater.auto o then Ok outdated else updater.prompt w outdated.

(** The file the updater reads and writes. *)
Definition manifest_path (w : updater.World) (directory : string) : string :=
  manager.path_join (updater.platform w) directory "package.json".

Section registry_terms.
Import security.

(** The dependencies the registry loop asks about, in the order of the
    merged object: those with a string range that is neither a local path
    nor a git address. *)
Fixpoint candidates (entries : list (string * value)) : list (string * string) :=
  match entries with
  | [] => []
  | (name, VStr version) :: entries' =>
      if startsWith version "file:" || startsWith version "git+"
      then candidates entries'
      else (name, version) :: candidates entries'
  | _ :: entries' => candidates entries'
  end.

(** The addresses of those dependencies at the registry. *)
Definition targets (entries : list (string * value)) : list string :=
  (λ pair, registry_url pair.1 pair.2) <$> candidates entries.

(** What the cache holds for the given dependencies, one after the other. *)
Definition cached_findings (s : state) (pairs : list (string * string))
    : list vulnerability :=
  concat ((λ pair, default [] (vulnerabilityCache s !! cache_key pair.1 pair.2))
            <$> pairs).

(** A record a report can be printed from: the fields the registry loop
    gives a default are all set. *)
Definition complete (v : vulnerability) : Prop :=
  truthy (severity v) = true ∧ truthy (title v) = true ∧
  truthy (url v) = true ∧ truthy (vulnerable_versions v) = true ∧
  truthy (patched_versions v) = true.

End registry_terms.

(** A record of the audit as the ES-module copy builds it: every field
    with a default there is set. *)
Definition described (v : security.vulnerability) : Prop :=
  truthy (security.severity v) = true ∧ truthy (security.title v) = true ∧
  truthy (security.vulnerable_versions v) = true ∧
  truthy (security.patched_versions v) = true ∧
  truthy (security.version v) = true.
(** ** More worlds for worked runs *)

Module more_runs.
Import checker documents runs.

(** A local package, a package from a repository, and one from the
    registry. *)
Definition with_local_packages : packageJson :=
  {| dependencies :=
       Some [("ui-kit", VStr "file:../ui-kit");
             ("legacy", VStr "git+https://example.org/legacy.git");
             ("chalk", VStr "^4.1.0")];
     devDependencies := None;
     peerDependencies := None |}.

(** Nothing but a local package and a package from a repository. *)
Definition only_local_packages : packageJson :=
  {| dependencies := Some [("ui-kit", VStr "file:../ui-kit")];
     devDependencies :=
       Some [("legacy", VStr "git+https://example.org/legacy.git")];
     peerDependencies := None |}.

(** A range that is a number, after a range that is fine. *)
Definition with_numeric_range : packageJson :=
  {| dependencies :=
       Some [("chalk", VStr "^4.1.0");
             ("left-pad", VNum {| num_sign := Gt; num_text := "1" |})];
     devDependencies := None;
     peerDependencies := None |}.

(** A world in which [package.json] cannot be read. *)
Definition unreadable : World :=
  {| access := Ok tt;
     readFile := Throw (Error "EACCES: permission denied, open 'package.json'");
     JSON_parse_manifest := parse_manifest caret_1_2_0;
     execSync := npm_view [("left-pad", "1.3.0")];
     JSON_parse := parse_string_literal |}.

End more_runs.


(** ** Worlds for worked runs of the updater and of the registry path *)

Module update_runs.
Import checker documents updater.

(** A project with two production dependencies and one development
    dependency. *)
Definition mixed : packageJson :=
  {| dependencies := Some [("left-pad", VStr "^1.2.0"); ("chalk", VStr "~4.1.0")];
     devDependencies := Some [("jest", VStr ">=29.0.0")];
     peerDependencies := None |}.

(** What the checker reports for it when the registry has [left-pad] 1.3.0
    and [jest] 30.0.0. *)
Definition left_pad_record : outdated :=
  {| name := "left-pad"; current := "^1.2.0"; latest := VStr "1.3.0";
     wanted := "^1.3.0"; type := "prod" |}.

Definition jest_record : outdated :=
  {| name := "jest"; current := ">=29.0.0"; latest := VStr "30.0.0";
     wanted := "^30.0.0"; type := "dev" |}.

(** A working directory that holds the given lock files. *)
Definition directory (lock_files : list string) : manager.World :=
  {| manager.cwd := Ok "/srv/app";
     manager.path_join := fun directory name => directory +:+ "/" +:+ name;
     manager.existsSync := fun path =>
       existsb (λ name, String.eqb path ("/srv/app/" +:+ name)) lock_files |}.

(** The project in that directory; every record stays ticked at the
    prompt, the manifest can be written, and the install command ends as
    [installed] says. *)
Definition project (lock_files : list string) (installed : result unit) : World :=
  {| platform := directory lock_files;
     readFile := fun path =>
       if String.eqb path "/srv/app/package.json" then Ok (manifest_text mixed)
       else Throw (Error ("ENOENT: no such file or directory, open '" +:+ path +:+ "'"));
     JSON_parse_manifest := parse_manifest mixed;
     prompt := fun records => Ok records;
     writeFile := fun _ _ => Ok tt;
     execSync := fun _ => installed |}.

(** The same directory without a manifest. *)
Definition no_manifest : World :=
  {| platform := directory [];
     readFile := fun path =>
       Throw (Error ("ENOENT: no such file or directory, open '" +:+ path +:+ "'"));
     JSON_parse_manifest := parse_manifest mixed;
     prompt := fun records => Ok records;
     writeFile := fun _ _ => Ok tt;
     execSync := fun _ => Ok tt |}.

(** The options the command line passes: [{ auto: true }] and
    [{ dev: true, peer: true }]. *)
Definition automatic : options := {| auto := true; dev := false; peer := false |}.
Definition confirmed : options := {| auto := false; dev := true; peer := true |}.

(** The manifest after [left-pad] was updated. *)
Definition mixed_updated : packageJson :=
  {| dependencies := Some [("left-pad", VStr "^1.3.0"); ("chalk", VStr "~4.1.0")];
     devDependencies := Some [("jest", VStr ">=29.0.0")];
     peerDependencies := None |}.

(** A failed install. *)
Definition install_failed : result unit :=
  Throw {| message := "Command failed with exit code 1";
           status := Some 1%Z;
           stdout := None |}.

End update_runs.

Module registry_runs.
Import documents security reports.

(** A project with a local package beside [minimist]. *)
Definition with_local : checker.packageJson :=
  {| checker.dependencies :=
       Some [("ui-kit", VStr "file:../ui-kit"); ("minimist", VStr "1.2.5")];
     checker.devDependencies := None;
     checker.peerDependencies := None |}.

(** No audit; the registry answers every request with the advisory
    document. *)
Definition registry_only (p : checker.packageJson) : World :=
  {| npm_audit_probe := Throw (exit_error 127 None);
     npm_audit := Throw (exit_error 127 (Some ""));
     readFile := Ok (manifest_text p);
     JSON_parse_manifest := parse_manifest p;
     fetch := fun _ _ =>
       Ok {| ok := true; http_status := 200; json := Ok advisory_document |};
     JSON_parse := parse_known [] |}.

(** The state after one run in that world. *)
Definition warmed_up : state :=
  (checkVulnerabilities (registry_only with_local) fresh).2.

End registry_runs.
(** * Properties *)

(** ** Objects *)

Lemma obj_get_set_eq (o : object) k v : obj_get (obj_set o k v) k = Some v.
Proof.
  induction o as [|[k' v'] o IH]; simpl.
  - by rewrite String.eqb_refl.
  - destruct (String.eqb_spec k' k) as [->|Hne]; simpl.
    + by rewrite String.eqb_refl.
    + destruct (String.eqb_spec k' k); [done | exact IH].
Qed.

Lemma obj_get_set_ne (o : object) k k' v :
  k ≠ k' → obj_get (obj_set o k v) k' = obj_get o k'.
Proof.
  intros Hne. induction o as [|[k0 v0] o IH]; simpl.
  - destruct (String.eqb_spec k k'); [done | reflexivity].
  - destruct (String.eqb_spec k0 k) as [->|Hk]; simpl.
    + destruct (String.eqb_spec k k'); [done | reflexivity].
    + by rewrite IH.
Qed.

Lemma obj_get_None (o : object) k : obj_get o k = None ↔ k ∉ o.*1.
Proof.
  induction o as [|[k0 v0] o IH]; simpl.
  - split; [intros _; apply not_elem_of_nil | done].
  - rewrite not_elem_of_cons. destruct (String.eqb_spec k0 k) as [->|Hk].
    + split; [done | intros [? _]; done].
    + rewrite IH. split; [intros ?; split; [congruence | done] | by intros [_ ?]].
Qed.

Lemma obj_get_elem_of (o : object) k v : obj_get o k = Some v → (k, v) ∈ o.
Proof.
  induction o as [|[k0 v0] o IH]; simpl; [done |].
  destruct (String.eqb_spec k0 k) as [->|Hk].
  - intros [= ->]. apply elem_of_cons; by left.
  - intros Hget. apply elem_of_cons; right; auto.
Qed.

Lemma elem_of_obj_get (o : object) k v :
  NoDup o.*1 → (k, v) ∈ o → obj_get o k = Some v.
Proof.
  induction o as [|[k0 v0] o IH]; simpl.
  - intros _ Hin. by apply elem_of_nil in Hin.
  - rewrite NoDup_cons. intros [Hfresh Hnd] Hin.
    apply elem_of_cons in Hin as [[= -> ->]|Hin].
    + by rewrite String.eqb_refl.
    + destruct (String.eqb_spec k0 k) as [->|Hk]; [| auto].
      exfalso. apply Hfresh. apply list_elem_of_fmap. by exists (k, v).
Qed.

Lemma obj_get_Permutation (o o' : object) k :
  NoDup o.*1 → o ≡ₚ o' → obj_get o k = obj_get o' k.
Proof.
  intros Hnd Hperm.
  assert (Hnd' : NoDup o'.*1) by (by rewrite <- Hperm).
  destruct (obj_get o k) as [v|] eqn:Hget.
  - symmetry. apply elem_of_obj_get; [done |].
    rewrite <- Hperm. by apply obj_get_elem_of.
  - symmetry. apply obj_get_None. apply obj_get_None in Hget.
    by rewrite <- Hperm.
Qed.

Lemma obj_set_keys (o : object) k v :
  (obj_set o k v).*1 = if decide (k ∈ o.*1) then o.*1 else o.*1 ++ [k].
Proof.
  induction o as [|[k0 v0] o IH].
  - destruct (decide (k ∈ ([] : object).*1)) as [Hin|_]; [| done].
    by apply elem_of_nil in Hin.
  - cbn [obj_set]. destruct (String.eqb_spec k0 k) as [->|Hk].
    + destruct (decide (k ∈ ((k, v0) :: o).*1)) as [_|Hout]; [done |].
      exfalso. apply Hout. apply elem_of_cons. by left.
    + rewrite fmap_cons, IH.
      destruct (decide (k ∈ o.*1)) as [Hin|Hout];
        destruct (decide (k ∈ ((k0, v0) :: o).*1)) as [Hin'|Hout']; try done.
      * exfalso. apply Hout'. apply elem_of_cons. by right.
      * apply elem_of_cons in Hin' as [Heq|Hin']; [simpl in Heq; congruence | done].
Qed.

Lemma obj_set_NoDup (o : object) k v : NoDup o.*1 → NoDup (obj_set o k v).*1.
Proof.
  intros Hnd. rewrite obj_set_keys. case_decide; [done |].
  apply NoDup_app. split_and!; [done | | apply NoDup_singleton].
  intros x Hx Hk. apply list_elem_of_singleton in Hk as ->. done.
Qed.

Lemma insert_index_Permutation {A} n (e : A) l : insert_index n e l ≡ₚ (n, e) :: l.
Proof.
  induction l as [|[m e'] l IH]; simpl; [done |].
  destruct (n <? m)%N; [done |]. rewrite IH. apply Permutation_swap.
Qed.

Lemma index_entries_Permutation (o : object) :
  (index_entries o).*2 ≡ₚ filter (λ kv, ¬ array_index kv.1 = None) o.
Proof.
  induction o as [|[k v] o IH]; simpl; [done |].
  rewrite filter_cons. simpl. destruct (array_index k) as [n|] eqn:Hk.
  - rewrite decide_True by done. rewrite insert_index_Permutation. simpl.
    by rewrite IH.
  - rewrite decide_False by (intros Hn; by apply Hn). exact IH.
Qed.

(** Enumeration reorders the own properties and neither drops nor repeats
    any. *)
Lemma own_entries_Permutation (o : object) : own_entries o ≡ₚ o.
Proof.
  unfold own_entries, named_entries. rewrite index_entries_Permutation.
  rewrite (Permutation_app_comm _ _). apply filter_app_complement.
Qed.

Lemma own_entries_obj_get (o : object) k :
  NoDup o.*1 → obj_get (own_entries o) k = obj_get o k.
Proof.
  intros Hnd. symmetry. apply obj_get_Permutation; [done |].
  symmetry. apply own_entries_Permutation.
Qed.

(** ** The semver calls *)

Section semver_facts.
Context `{semver.Grammar}.

(** [gt] answers [true] only on two strings that both spell versions, the
    first strictly above the second. *)
Lemma gt_true a b :
  semver.gt a b = Ok true →
  ∃ x y sx sy, a = VStr x ∧ b = VStr y ∧ semver.parse x = Some sx ∧
    semver.parse y = Some sy ∧ semver.compare sx sy = Gt.
Proof.
  unfold semver.gt, semver.new_SemVer. intros Hgt.
  repeat case_match; simplify_eq. eauto 10.
Qed.


(** Over the one candidate [latest], [maxSatisfying] answers either that
    candidate or [null]: the candidate when the range is valid and contains
    it, [null] in every other case. *)
Lemma maxSatisfying_singleton l sl range :
  semver.parse l = Some sl → truthy (VStr l) = true →
  semver.maxSatisfying [VStr l] range =
    Ok (match semver.parseRange range with
        | Some r => if semver.testSet r sl then VStr l else VNull
        | None => VNull
        end).
Proof.
  intros Hl Hne. unfold semver.maxSatisfying.
  destruct (semver.parseRange range) as [r|]; [| done].
  unfold semver.maxSatisfying_loop, semver.test, semver.new_SemVer.
  rewrite Hne, Hl. simpl. by destruct (semver.testSet r sl).
Qed.

End semver_facts.

(** ** Console computations *)


Lemma appends_ret {A} (a : A) : appends (ret a).
Proof. intros out. unfold ret. simpl. by rewrite app_nil_r. Qed.

Lemma appends_throw {A} e : appends (throw (A := A) e).
Proof. intros out. unfold throw. simpl. by rewrite app_nil_r. Qed.

Lemma appends_lift {A} (r : result A) : appends (lift r).
Proof. intros out. unfold lift. simpl. by rewrite app_nil_r. Qed.

Lemma appends_warn msg : appends (checker.warn msg).
Proof. intros out. reflexivity. Qed.

Lemma appends_bind {A B} (m : M checker.console A) (k : A → M checker.console B) :
  appends m → (∀ a, appends (k a)) → appends (bind m k).
Proof.
  intros Hm Hk out. unfold bind. rewrite (Hm out).
  destruct (m []) as [[a|e] ws]; simpl.
  - rewrite (Hk a (out ++ ws)), (Hk a ws). simpl. by rewrite app_assoc.
  - done.
Qed.

Lemma appends_try_catch {A} (m : M checker.console A) h :
  appends m → (∀ e, appends (h e)) → appends (try_catch m h).
Proof.
  intros Hm Hh out. unfold try_catch. rewrite (Hm out).
  destruct (m []) as [[a|e] ws]; simpl.
  - done.
  - rewrite (Hh e (out ++ ws)), (Hh e ws). simpl. by rewrite app_assoc.
Qed.

Ltac solve_appends :=
  repeat first
    [ apply appends_ret | apply appends_throw | apply appends_lift
    | apply appends_warn | apply appends_bind | apply appends_try_catch
    | intros ? | case_match ].

(** ** The checker *)

Section checker_facts.
Context `{semver.Grammar} (w : checker.World).

Import checker.

Lemma getLatestVersion_appends name : appends (getLatestVersion w name).
Proof. unfold getLatestVersion. solve_appends. Qed.

Lemma check_entry_appends p name cv : appends (check_entry w p name cv).
Proof.
  unfold check_entry. apply appends_bind; [apply getLatestVersion_appends |].
  solve_appends.
Qed.


Lemma attempt_appends p name cv : appends (attempt w p name cv).
Proof.
  unfold attempt. apply appends_try_catch; [apply check_entry_appends |].
  solve_appends.
Qed.

(** The guard lets no exception of the body out. *)
Lemma attempt_returns p name cv out :
  ∃ pushed, (attempt w p name cv out).1 = Ok pushed.
Proof.
  unfold attempt, try_catch.
  destruct (check_entry w p name cv out) as [[a|e] out']; simpl; eauto.
Qed.

(** What the guard pushes is what the body returned. *)
Lemma attempt_pushes p name cv out r :
  (attempt w p name cv out).1 = Ok (Some r) ↔
  (check_entry w p name cv []).1 = Ok (Some r).
Proof.
  unfold attempt, try_catch. rewrite (check_entry_appends p name cv out).
  destruct (check_entry w p name cv []) as [[a|e] ws]; simpl; [done |].
  split; intros; simplify_eq.
Qed.

Lemma scan_appends p entries found : appends (scan w p entries found).
Proof.
  revert found. induction entries as [|[name v] entries IH]; intros found.
  - apply appends_ret.
  - simpl. destruct v; try apply appends_throw.
    case_match; [apply IH |].
    apply appends_bind; [apply attempt_appends | intros; apply IH].
Qed.



Lemma scan_strings p entries found out result out' :
  scan w p entries found out = (Ok result, out') →
  Forall (λ e, ∃ cv, e.2 = VStr cv) entries.
Proof.
  revert found out. induction entries as [|[name v] entries IH];
    intros found out Hscan; [done |].
  simpl in Hscan. destruct v; try (by unfold throw in Hscan).
  apply Forall_cons. split; [by eexists |].
  case_match; [by eapply IH |].
  unfold bind in Hscan.
  destruct (attempt w p name s out) as [[pushed|e] out1]; [| done].
  by eapply IH.
Qed.

Lemma scan_result p entries found out result out' :
  scan w p entries found out = (Ok result, out') →
  ∀ r, r ∈ result ↔
       r ∈ found ∨
       ∃ name cv, (name, VStr cv) ∈ entries ∧ skipped cv = false ∧
                  yields w p name cv r.
Proof.
  revert found out. induction entries as [|[name v] entries IH];
    intros found out Hscan r.
  - unfold scan, ret in Hscan. simplify_eq. split; [by left |].
    intros [?|(? & ? & Hin & _)]; [done | by apply elem_of_nil in Hin].
  - simpl in Hscan. destruct v; try (by unfold throw in Hscan).
    fold (skipped s) in Hscan. destruct (skipped s) eqn:Hskip.
    + rewrite (IH _ _ Hscan r). split; intros [?|(n & cv & Hin & Hs & Hy)];
        try (by left); right; exists n, cv.
      * split_and!; [apply elem_of_cons; by right | done | done].
      * apply elem_of_cons in Hin as [?|Hin]; [simplify_eq; congruence |].
        done.
    + unfold bind in Hscan.
      pose proof (attempt_pushes p name s out) as Hpush.
      destruct (attempt w p name s out) as [[pushed|e] out1]; [| done].
      simpl in Hpush. rewrite (IH _ _ Hscan r), elem_of_app.
      split.
      * intros [[?|Hr]|(n & cv & Hin & Hs & Hy)]; [by left | |].
        -- right. exists name, s. split_and!; [apply elem_of_cons; by left | done |].
           destruct pushed as [r'|]; simpl in Hr;
             [apply list_elem_of_singleton in Hr as -> | by apply elem_of_nil in Hr].
           by apply Hpush.
        -- right. exists n, cv. split_and!; [apply elem_of_cons; by right | done | done].
      * intros [?|(n & cv & Hin & Hs & Hy)]; [by left; left |].
        apply elem_of_cons in Hin as [?|Hin]; simplify_eq.
        -- left; right. apply Hpush in Hy. simplify_eq. simpl.
           by apply list_elem_of_singleton.
        -- right. eauto.
Qed.



(** A record is built only from a successful query whose answer is a
    non-empty string spelling a version strictly above the stripped range. *)
Lemma yields_inv p name cv r :
  yields w p name cv r →
  ∃ text l sl sc,
    execSync w (view_command name) = Ok text ∧
    JSON_parse w (trim text) = Ok (VStr l) ∧
    semver.parse l = Some sl ∧
    semver.parse (strip_range_operators cv) = Some sc ∧
    semver.compare sl sc = Gt ∧
    r = record_of p name cv l.
Proof.
  unfold yields, check_entry, getLatestVersion, view_command.
  unfold bind, try_catch, lift, ret. intros Hy.
  destruct (execSync w _) as [text|e] eqn:Hexec; simpl in Hy; [| done].
  destruct (JSON_parse w (trim text)) as [v|e] eqn:Hjson; simpl in Hy; [| done].
  destruct (truthy v) eqn:Hv; simpl in Hy; [| done].
  destruct (semver.gt v _) as [[|]|e] eqn:Hgt; simpl in Hy; try done.
  apply gt_true in Hgt as (l & y & sl & sc & -> & [= <-] & Hl & Hc & Hcmp).
  rewrite (maxSatisfying_singleton l sl cv Hl Hv) in Hy.
  exists text, l, sl, sc. split_and!; try done.
  assert (Hw : ∀ highest, highest = VStr l ∨ highest = VNull →
               or_else highest (VStr l) = VStr l).
  { intros ? [->| ->]; unfold or_else; [by rewrite Hv | done]. }
  rewrite Hw in Hy by (repeat case_match; auto).
  simpl in Hy. by simplify_eq.
Qed.





Lemma checkDependencies_loads p out :
  loads w p →
  checkDependencies w out =
    match scan w p (own_entries (allDeps p)) [] out with
    | (Ok result, out') => (Ok result, out')
    | (Throw e, out') =>
        (Throw (Error ("Error checking dependencies: " +:+ message e)), out')
    end.
Proof.
  intros (text & Ha & Hr & Hp). unfold checkDependencies.
  unfold try_catch, bind, lift. by rewrite Ha, Hr, Hp.
Qed.

Lemma checkDependencies_inv out result out' :
  checkDependencies w out = (Ok result, out') →
  ∃ p, loads w p ∧ scan w p (own_entries (allDeps p)) [] out = (Ok result, out').
Proof.
  unfold checkDependencies, try_catch, bind, lift, throw. intros Hc.
  destruct (access w) as [[]|e] eqn:Ha; [| done].
  destruct (readFile w) as [text|e] eqn:Hr; [| done].
  destruct (JSON_parse_manifest w text) as [p|e] eqn:Hp; [| done].
  exists p. split; [by exists text |].
  destruct (scan w p _ [] out) as [[result'|e] out1]; [done | done].
Qed.


End checker_facts.

(** ** The merged dependency object *)

Section merge_facts.
Import checker.


Lemma fold_set_NoDup (es t : object) :
  NoDup t.*1 → NoDup (fold_left set_entry es t).*1.
Proof.
  revert t. induction es as [|[k v] es IH]; intros t Hnd; [done |].
  simpl. apply IH. by apply obj_set_NoDup.
Qed.

(** Later assignments win. *)
Lemma fold_set_get (es t : object) k :
  NoDup es.*1 →
  obj_get (fold_left set_entry es t) k =
    match obj_get es k with Some v => Some v | None => obj_get t k end.
Proof.
  revert t. induction es as [|[k0 v0] es IH]; intros t Hnd; [done |].
  apply NoDup_cons in Hnd as [Hfresh Hnd]. simpl in Hfresh. simpl.
  rewrite (IH _ Hnd). unfold set_entry at 1. simpl.
  destruct (String.eqb_spec k0 k) as [->|Hk].
  - apply obj_get_None in Hfresh. rewrite Hfresh. apply obj_get_set_eq.
  - by rewrite obj_get_set_ne.
Qed.



Lemma spread_get (t : object) source k :
  NoDup (default [] source).*1 →
  obj_get (spread t source) k =
    match own source k with Some v => Some v | None => obj_get t k end.
Proof.
  intros Hnd. unfold spread. fold set_entry.
  rewrite fold_set_get by (by rewrite own_entries_Permutation).
  rewrite own_entries_obj_get by done. by destruct source.
Qed.


Lemma allDeps_get p k : well_formed p → obj_get (allDeps p) k = declared p k.
Proof.
  intros (Hd & Hv & Hp). unfold allDeps, declared.
  rewrite !spread_get by done. simpl. by repeat case_match.
Qed.

Lemma allDeps_NoDup p : NoDup (allDeps p).*1.
Proof.
  unfold allDeps, spread. fold set_entry.
  repeat apply fold_set_NoDup. apply NoDup_nil_2.
Qed.

Lemma allDeps_elem_of p k v :
  well_formed p → (k, v) ∈ own_entries (allDeps p) → declared p k = Some v.
Proof.
  intros Hwf Hin. rewrite <- allDeps_get by done.
  apply elem_of_obj_get; [apply allDeps_NoDup |].
  by rewrite <- own_entries_Permutation.
Qed.

End merge_facts.



(** ** What the returned records say *)

Section checker_claims.
Context `{semver.Grammar} (w : checker.World).
Import checker.

Lemma loads_unique p p' : loads w p → loads w p' → p = p'.
Proof.
  intros (t & Ha & Hr & Hp) (t' & Ha' & Hr' & Hp'). congruence.
Qed.

(** The returned array holds exactly what the visited entries yield. *)
Lemma checkDependencies_records out result out' :
  checkDependencies w out = (Ok result, out') →
  ∃ p, loads w p ∧
    ∀ r, r ∈ result ↔
         ∃ name cv, (name, VStr cv) ∈ own_entries (allDeps p) ∧
                    skipped cv = false ∧ yields w p name cv r.
Proof.
  intros Hc. apply checkDependencies_inv in Hc as (p & Hp & Hscan).
  exists p. split; [done |]. intros r.
  rewrite (scan_result w p _ _ _ _ _ Hscan r). split.
  - intros [Hnil|?]; [by apply elem_of_nil in Hnil | done].
  - by right.
Qed.

(** C9: for every record returned by checkDependencies, the wanted field is
    the string ["^"] followed by the latest field.  The candidates handed to
    maxSatisfying are the single latest version, so its answer is either
    null or that version, and with the fallback to the latest version the
    value that is printed after the caret is always the latest version,
    whatever operator the declared range carries. *)
Theorem wanted_is_caret_latest out result out' (r : outdated) :
  checkDependencies w out = (Ok result, out') →
  r ∈ result →
  ∃ l highest,
    latest r = VStr l ∧
    semver.maxSatisfying [latest r] (current r) = Ok highest ∧
    (highest = VNull ∨ highest = latest r) ∧
    or_else highest (latest r) = latest r ∧
    wanted r = "^" +:+ l.
Proof.
  intros Hc Hr.
  apply checkDependencies_records in Hc as (p & _ & Hrec).
  apply Hrec in Hr as (name & cv & _ & _ & Hy).
  pose proof Hy as Hy'. unfold yields in Hy'.
  apply yields_inv in Hy as (text & l & sl & sc & Hexec & Hjson & Hl & _ & _ & ->).
  assert (Hv : truthy (VStr l) = true).
  { unfold check_entry, getLatestVersion, bind, try_catch, lift, ret in Hy'.
    fold (view_command name) in Hy'. rewrite Hexec in Hy'.
    cbv beta iota in Hy'. rewrite Hjson in Hy'. cbv beta iota in Hy'.
    by destruct (truthy (VStr l)). }
  exists l. eexists. simpl latest. simpl current. simpl wanted.
  split; [done |].
  split; [by apply (maxSatisfying_singleton l sl cv) |].
  split; [repeat case_match; auto |].
  split; [| done].
  unfold or_else. repeat case_match; try done.
Qed.

(** C1, as the code has it: whenever the loop body builds a record for a
    declared range and a latest version, maxSatisfying over the single
    candidate answers the latest version if the declared range is valid and
    contains it and null otherwise; wantedVersion is the latest version in
    both cases; and the wanted field of the record is ["^"] followed by it,
    so ["^1.2.0"] against ["1.3.0"] reports ["^1.3.0"]. *)
Theorem wanted_is_latest_or_fallback p name currentVersion out (r : outdated) :
  (check_entry w p name currentVersion out).1 = Ok (Some r) →
  ∃ l sl,
    latest r = VStr l ∧
    semver.parse l = Some sl ∧
    semver.maxSatisfying [VStr l] currentVersion =
      Ok (match semver.parseRange currentVersion with
          | Some range => if semver.testSet range sl then VStr l else VNull
          | None => VNull
          end) ∧
    (∀ highest, highest = VStr l ∨ highest = VNull →
                or_else highest (VStr l) = VStr l) ∧
    wanted r = "^" +:+ l.
Proof.
  intros Hy. rewrite (check_entry_appends w p name currentVersion out) in Hy.
  simpl in Hy. pose proof Hy as Hy'.
  apply yields_inv in Hy as (text & l & sl & sc & Hexec & Hjson & Hl & _ & _ & ->).
  assert (Hv : truthy (VStr l) = true).
  { unfold check_entry, getLatestVersion, bind, try_catch, lift, ret in Hy'.
    fold (view_command name) in Hy'. rewrite Hexec in Hy'.
    cbv beta iota in Hy'. rewrite Hjson in Hy'. cbv beta iota in Hy'.
    by destruct (truthy (VStr l)). }
  exists l, sl. split_and!; try done.
  - by apply maxSatisfying_singleton.
  - intros ? [->| ->]; unfold or_else; [by rewrite Hv | done].
Qed.

(** C3: a package is in the output only if the latest published version is
    strictly greater, in the ordering of semantic versions, than the
    declared range with its leading operator characters stripped; and a
    dependency whose latest version is not greater (equal, for one) has no
    record in the output. *)
Theorem outdated_only_if_strictly_newer out result out' :
  checkDependencies w out = (Ok result, out') →
  (∀ r, r ∈ result →
     ∃ text l sl sc,
       execSync w (view_command (name r)) = Ok text ∧
       JSON_parse w (trim text) = Ok (VStr l) ∧
       latest r = VStr l ∧
       semver.parse l = Some sl ∧
       semver.parse (strip_range_operators (current r)) = Some sc ∧
       semver.compare sl sc = Gt) ∧
  (∀ p pkg cv text l sl sc,
     loads w p →
     (pkg, VStr cv) ∈ allDeps p →
     execSync w (view_command pkg) = Ok text →
     JSON_parse w (trim text) = Ok (VStr l) →
     semver.parse l = Some sl →
     semver.parse (strip_range_operators cv) = Some sc →
     semver.compare sl sc ≠ Gt →
     ∀ r, r ∈ result → name r ≠ pkg).
Proof.
  intros Hc. apply checkDependencies_records in Hc as (p & Hp & Hrec).
  split.
  - intros r Hr. apply Hrec in Hr as (name & cv & _ & _ & Hy).
    apply yields_inv in Hy
      as (text & l & sl & sc & Hexec & Hjson & Hl & Hcv & Hcmp & ->).
    by exists text, l, sl, sc.
  - intros p' pkg cv text l sl sc Hp' Hin Hexec Hjson Hl Hcv Hcmp r Hr Hname.
    rewrite <- (loads_unique _ _ Hp Hp') in Hin.
    apply Hrec in Hr as (name & cv' & Hin' & _ & Hy).
    apply yields_inv in Hy
      as (text' & l' & sl' & sc' & Hexec' & Hjson' & Hl' & Hcv' & Hcmp' & ->).
    simpl in Hname. subst name.
    rewrite own_entries_Permutation in Hin'.
    pose proof (allDeps_NoDup p) as Hnd.
    pose proof (elem_of_obj_get _ _ _ Hnd Hin) as Hg.
    pose proof (elem_of_obj_get _ _ _ Hnd Hin') as Hg'.
    simplify_eq. congruence.
Qed.

(** C10: the range that is compared and reported as [current] is the one the
    merged object holds for the name, which is the one of the bucket merged
    last: peerDependencies if the name is there, otherwise devDependencies,
    otherwise dependencies. *)
Theorem current_is_from_last_merged_bucket p out result out' (r : outdated) :
  loads w p →
  well_formed p →
  checkDependencies w out = (Ok result, out') →
  r ∈ result →
  Some (VStr (current r)) =
    match own (peerDependencies p) (name r) with
    | Some range => Some range
    | None =>
        match own (devDependencies p) (name r) with
        | Some range => Some range
        | None => own (dependencies p) (name r)
        end
    end ∧
  ∃ l sl sc,
    latest r = VStr l ∧ semver.parse l = Some sl ∧
    semver.parse (strip_range_operators (current r)) = Some sc ∧
    semver.compare sl sc = Gt.
Proof.
  intros Hp Hwf Hc Hr.
  apply checkDependencies_records in Hc as (p' & Hp' & Hrec).
  rewrite <- (loads_unique _ _ Hp Hp') in Hrec.
  apply Hrec in Hr as (name & cv & Hin & _ & Hy).
  apply yields_inv in Hy
    as (text & l & sl & sc & Hexec & Hjson & Hl & Hcv & Hcmp & ->).
  simpl. split; [| by exists l, sl, sc].
  symmetry. by apply (allDeps_elem_of p name (VStr cv)).
Qed.

(** C2, as the code has it: the type of a record is chosen by the fixed
    precedence development, then peer, then production: it is ["dev"] when
    devDependencies holds a truthy entry for the name, otherwise ["peer"]
    when peerDependencies holds one, and ["prod"] otherwise. *)
Theorem type_precedence_dev_peer_prod out result out' (r : outdated) :
  checkDependencies w out = (Ok result, out') →
  r ∈ result →
  ∃ p, loads w p ∧
    type r =
      (if listed (devDependencies p) (name r) then "dev"
       else if listed (peerDependencies p) (name r) then "peer"
       else "prod").
Proof.
  intros Hc Hr.
  apply checkDependencies_records in Hc as (p & Hp & Hrec).
  apply Hrec in Hr as (name & cv & _ & _ & Hy).
  apply yields_inv in Hy as (text & l & sl & sc & _ & _ & _ & _ & _ & ->).
  by exists p.
Qed.


End checker_claims.

(** ** The claims on worked runs *)

Section checker_runs.
Import checker runs.

Example run_caret_1_2_0_latest_1_3_0 :
  run caret_1_2_0 [("left-pad", "1.3.0")] =
    (Ok [record_of caret_1_2_0 "left-pad" "^1.2.0" "1.3.0"], []).
Proof. vm_compute. reflexivity. Qed.

(** The fallback: the range does not contain the latest version. *)
Example run_caret_1_2_0_latest_2_0_0 :
  run caret_1_2_0 [("left-pad", "2.0.0")] =
    (Ok [record_of caret_1_2_0 "left-pad" "^1.2.0" "2.0.0"], []).
Proof. vm_compute. reflexivity. Qed.

Example run_caret_1_2_0_latest_1_2_0 :
  run caret_1_2_0 [("left-pad", "1.2.0")] = (Ok [], []).
Proof. vm_compute. reflexivity. Qed.

Lemma wanted_is_caret_latest_witness :
  run caret_1_2_0 [("left-pad", "2.0.0")] =
    (Ok [record_of caret_1_2_0 "left-pad" "^1.2.0" "2.0.0"], []) ∧
  ∃ l highest,
    VStr "2.0.0" = VStr l ∧
    semver.maxSatisfying (H := semver.strict) [VStr "2.0.0"] "^1.2.0" = Ok highest ∧
    (highest = VNull ∨ highest = VStr "2.0.0") ∧
    or_else highest (VStr "2.0.0") = VStr "2.0.0" ∧
    "^2.0.0" = "^" +:+ l.
Proof.
  split; [vm_compute; reflexivity |].
  apply (wanted_is_caret_latest (H := semver.strict)
           (world caret_1_2_0 [("left-pad", "2.0.0")]) []
           [record_of caret_1_2_0 "left-pad" "^1.2.0" "2.0.0"] []
           (record_of caret_1_2_0 "left-pad" "^1.2.0" "2.0.0")).
  - vm_compute. reflexivity.
  - constructor.
Defined.

(** C1 as it is stated does not hold: for ["^1.2.0"] and latest ["1.3.0"]
    the record carries ["^1.3.0"], not the bare ["1.3.0"]. *)
Lemma wanted_of_caret_1_2_0_is_not_bare :
  ∃ r, run caret_1_2_0 [("left-pad", "1.3.0")] = (Ok [r], []) ∧
       current r = "^1.2.0" ∧ latest r = VStr "1.3.0" ∧
       wanted r = "^1.3.0" ∧ wanted r ≠ "1.3.0".
Proof.
  exists (record_of caret_1_2_0 "left-pad" "^1.2.0" "1.3.0").
  split_and!; [vm_compute; reflexivity | done | done | done | discriminate].
Qed.

Lemma wanted_is_latest_or_fallback_witness :
  (check_entry (H := semver.strict) (world caret_1_2_0 [("left-pad", "1.3.0")])
     caret_1_2_0 "left-pad" "^1.2.0" []).1 =
    Ok (Some (record_of caret_1_2_0 "left-pad" "^1.2.0" "1.3.0")) ∧
  ∃ l sl,
    VStr "1.3.0" = VStr l ∧
    semver.parse_version l = Some sl ∧
    semver.maxSatisfying (H := semver.strict) [VStr l] "^1.2.0" =
      Ok (match semver.parse_primitive "^1.2.0" with
          | Some range => if semver.test_comparators range sl then VStr l else VNull
          | None => VNull
          end) ∧
    (∀ highest, highest = VStr l ∨ highest = VNull →
                or_else highest (VStr l) = VStr l) ∧
    "^1.3.0" = "^" +:+ l.
Proof.
  split; [vm_compute; reflexivity |].
  apply (wanted_is_latest_or_fallback (H := semver.strict)
           (world caret_1_2_0 [("left-pad", "1.3.0")])
           caret_1_2_0 "left-pad" "^1.2.0" []
           (record_of caret_1_2_0 "left-pad" "^1.2.0" "1.3.0")).
  vm_compute. reflexivity.
Defined.

(** C2 as it is stated does not hold: [lodash] is a production and a
    development dependency, and its record says ["dev"]. *)
Lemma production_does_not_take_precedence :
  ∃ r, run in_two_buckets [("lodash", "4.17.21")] = (Ok [r], []) ∧
       name r = "lodash" ∧
       own (dependencies in_two_buckets) "lodash" = Some (VStr "^4.17.0") ∧
       own (devDependencies in_two_buckets) "lodash" = Some (VStr "~4.16.0") ∧
       type r = "dev" ∧ type r ≠ "prod".
Proof.
  exists (record_of in_two_buckets "lodash" "~4.16.0" "4.17.21").
  split_and!; [vm_compute; reflexivity | done | done | done | done | discriminate].
Qed.

Lemma type_precedence_dev_peer_prod_witness :
  run in_three_buckets [("react", "18.2.0")] =
    (Ok [record_of in_three_buckets "react" "^16.8.0" "18.2.0"], []) ∧
  ∃ p, loads (world in_three_buckets [("react", "18.2.0")]) p ∧
    "dev" =
      (if listed (devDependencies p) "react" then "dev"
       else if listed (peerDependencies p) "react" then "peer"
       else "prod").
Proof.
  split; [vm_compute; reflexivity |].
  apply (type_precedence_dev_peer_prod (H := semver.strict)
           (world in_three_buckets [("react", "18.2.0")]) []
           [record_of in_three_buckets "react" "^16.8.0" "18.2.0"] []
           (record_of in_three_buckets "react" "^16.8.0" "18.2.0")).
  - vm_compute. reflexivity.
  - constructor.
Defined.

Lemma outdated_only_if_strictly_newer_witness :
  run newer_and_equal [("left-pad", "1.2.0"); ("chalk", "5.3.0")] =
    (Ok [record_of newer_and_equal "chalk" "^4.1.0" "5.3.0"], []) ∧
  (∀ r, r ∈ [record_of newer_and_equal "chalk" "^4.1.0" "5.3.0"] →
     ∃ text l sl sc,
       npm_view [("left-pad", "1.2.0"); ("chalk", "5.3.0")]
         (view_command (name r)) = Ok text ∧
       parse_string_literal (trim text) = Ok (VStr l) ∧
       latest r = VStr l ∧
       semver.parse_version l = Some sl ∧
       semver.parse_version (strip_range_operators (current r)) = Some sc ∧
       semver.compare sl sc = Gt) ∧
  (∀ r, r ∈ [record_of newer_and_equal "chalk" "^4.1.0" "5.3.0"] →
     name r ≠ "left-pad").
Proof.
  split; [vm_compute; reflexivity |].
  destruct (outdated_only_if_strictly_newer (H := semver.strict)
              (world newer_and_equal [("left-pad", "1.2.0"); ("chalk", "5.3.0")])
              [] [record_of newer_and_equal "chalk" "^4.1.0" "5.3.0"] [])
    as [Honly Hnone].
  - vm_compute. reflexivity.
  - split; [exact Honly |].
    apply (Hnone newer_and_equal "left-pad" "^1.2.0"
             (documents.quote +:+ "1.2.0" +:+ documents.quote +:+ documents.newline) "1.2.0"
             (semver.release 1 2 0) (semver.release 1 2 0)).
    + exists (documents.manifest_text newer_and_equal).
      split_and!; vm_compute; reflexivity.
    + constructor.
    + vm_compute. reflexivity.
    + vm_compute. reflexivity.
    + vm_compute. reflexivity.
    + vm_compute. reflexivity.
    + vm_compute. discriminate.
Defined.

Lemma current_is_from_last_merged_bucket_witness :
  run in_three_buckets [("react", "18.2.0")] =
    (Ok [record_of in_three_buckets "react" "^16.8.0" "18.2.0"], []) ∧
  Some (VStr "^16.8.0") =
    match own (peerDependencies in_three_buckets) "react" with
    | Some range => Some range
    | None =>
        match own (devDependencies in_three_buckets) "react" with
        | Some range => Some range
        | None => own (dependencies in_three_buckets) "react"
        end
    end ∧
  ∃ l sl sc,
    VStr "18.2.0" = VStr l ∧ semver.parse_version l = Some sl ∧
    semver.parse_version (strip_range_operators "^16.8.0") = Some sc ∧
    semver.compare sl sc = Gt.
Proof.
  split; [vm_compute; reflexivity |].
  apply (current_is_from_last_merged_bucket (H := semver.strict)
           (world in_three_buckets [("react", "18.2.0")]) in_three_buckets []
           [record_of in_three_buckets "react" "^16.8.0" "18.2.0"] []
           (record_of in_three_buckets "react" "^16.8.0" "18.2.0")).
  - exists (documents.manifest_text in_three_buckets).
      split_and!; vm_compute; reflexivity.
  - repeat split; simpl; apply NoDup_singleton.
  - vm_compute. reflexivity.
  - constructor.
Defined.


End checker_runs.

(** ** The aggregator *)

Section security_facts.
Context (w : security.World).
Import security.

(** A [try] whose handler only warns and returns lets nothing out. *)
Lemma guarded_returns {S A} (m : M S A) (h : js_error → M S A) :
  (∀ e s, ∃ a s', h e s = (Ok a, s')) →
  ∀ s, ∃ a s', try_catch m h s = (Ok a, s').
Proof.
  intros Hh s. unfold try_catch. destruct (m s) as [[a|e] s']; eauto.
Qed.


(** A cached key is answered without a request, and nothing changes. *)
Lemma getPackageVulnerabilities_hit name version s found :
  vulnerabilityCache s !! cache_key name version = Some found →
  getPackageVulnerabilities w name version s = (Ok found, s).
Proof.
  intros Hhit. unfold getPackageVulnerabilities, bind, cache_get.
  fold (cache_key name version). by rewrite Hhit.
Qed.



Lemma getPackageVulnerabilities_miss name version s :
  vulnerabilityCache s !! cache_key name version = None →
  getPackageVulnerabilities w name version s =
    let s1 := requested s (registry_url name version) in
    match answer name version
            (fetch w (length (requests s)) (registry_url name version)) with
    | Ok found =>
        (Ok found,
         {| console := console s1;
            vulnerabilityCache :=
              <[cache_key name version := found]> (vulnerabilityCache s1);
            requests := requests s1 |})
    | Throw e =>
        (Ok [],
         {| console :=
              console s1 ++
                ["Warning: Could not fetch vulnerability data for " +:+ name
                 +:+ "@" +:+ version +:+ ": " +:+ message e];
            vulnerabilityCache := vulnerabilityCache s1;
            requests := requests s1 |})
    end.
Proof.
  intros Hmiss. unfold getPackageVulnerabilities, bind at 1, cache_get.
  fold (cache_key name version). rewrite Hmiss.
  unfold try_catch, bind at 1, send, answer, and_then.
  destruct (fetch w _ _) as [resp|e]; [| done].
  destruct (ok resp); simpl; [| done].
  unfold bind, lift, cache_set, ret, and_then.
  destruct (json resp) as [data|e]; [| done].
  by destruct (registry_findings name version data).
Qed.

Lemma getPackageVulnerabilities_returns name version s :
  ∃ found s', getPackageVulnerabilities w name version s = (Ok found, s').
Proof.
  destruct (vulnerabilityCache s !! cache_key name version) as [found|] eqn:Hc.
  - rewrite (getPackageVulnerabilities_hit _ _ _ _ Hc). eauto.
  - rewrite (getPackageVulnerabilities_miss _ _ _ Hc). simpl.
    destruct (answer _ _ _); eauto.
Qed.

(** A request never removes or replaces what the cache already holds. *)
Lemma getPackageVulnerabilities_keeps name version s r s' key found :
  getPackageVulnerabilities w name version s = (r, s') →
  vulnerabilityCache s !! key = Some found →
  vulnerabilityCache s' !! key = Some found.
Proof.
  intros Hget Hkey.
  destruct (vulnerabilityCache s !! cache_key name version) as [hit|] eqn:Hc.
  - rewrite (getPackageVulnerabilities_hit _ _ _ _ Hc) in Hget. by simplify_eq.
  - rewrite (getPackageVulnerabilities_miss _ _ _ Hc) in Hget. simpl in Hget.
    destruct (answer _ _ _); simplify_eq; simpl; [| done].
    rewrite lookup_insert_ne; [done |]. intros <-. congruence.
Qed.


Lemma request_each_keeps pairs s key found :
  vulnerabilityCache s !! key = Some found →
  ∃ s', request_each w pairs s = (Ok tt, s') ∧
        vulnerabilityCache s' !! key = Some found.
Proof.
  revert s. induction pairs as [|[name version] pairs IH]; intros s Hkey.
  - exists s. by split.
  - unfold request_each. simpl. unfold bind at 1. unfold bind at 1.
    destruct (getPackageVulnerabilities_returns name version s)
      as (found' & s1 & Hget).
    simpl. rewrite Hget. unfold ret at 1.
    apply (IH s1). by eapply getPackageVulnerabilities_keeps.
Qed.

End security_facts.



(** ** What the aggregator returns *)

Section security_claims.
Import security.


Lemma visit_unusable (w : World) entries found s :
  registry_unusable w →
  vulnerabilityCache s = ∅ →
  ∃ s', visit w entries found s = (Ok found, s') ∧ vulnerabilityCache s' = ∅.
Proof.
  intros Hdown. revert found s.
  induction entries as [|[name v] entries IH]; intros found s Hempty.
  - by exists s.
  - simpl. destruct v; try by apply IH.
    case_match; [by apply IH |].
    unfold bind at 1, try_catch.
    assert (Hmiss : vulnerabilityCache s !! cache_key name s0 = None)
      by (rewrite Hempty; apply lookup_empty).
    rewrite (getPackageVulnerabilities_miss w name s0 s Hmiss).
    cbv zeta. pose proof (Hdown (length (requests s)) (registry_url name s0) name s0) as Hno.
    destruct (answer name s0 _) as [?|e]; [done |].
    rewrite app_nil_r. by apply IH.
Qed.

Lemma checkVulnerabilities_returns (w : World) s :
  ∃ found s', checkVulnerabilities w s = (Ok found, s').
Proof. apply guarded_returns. intros e s0. by eexists _, _. Qed.

Lemma esm_checkVulnerabilities_returns (w : security_esm.World) out :
  ∃ found out', security_esm.checkVulnerabilities w out = (Ok found, out').
Proof. apply guarded_returns. intros e s0. by eexists _, _. Qed.

(** The handler of the ES-module copy returns nothing when the failure
    carries no output that parses. *)
Lemma failed_audit_without_output (w : security_esm.World) e out :
  (∀ text, stdout e = Some text → is_ok (security_esm.JSON_parse w text) = false) →
  ∃ out', security_esm.failed_audit w e out = (Ok [], out').
Proof.
  intros Hno. unfold security_esm.failed_audit.
  destruct (security_esm.mentions (stdout e) _); [by eexists |].
  destruct (security_esm.mentions (Some (message e)) _); [by eexists |].
  unfold bind at 1.
  destruct (bool_decide (status e = Some 1%Z) && includes (message e) "npm audit");
    [| by eexists].
  unfold try_catch, lift, security_esm.failure_findings.
  destruct (stdout e) as [[|c rest]|] eqn:Hout; try by eexists.
  specialize (Hno _ eq_refl). unfold and_then.
  destruct (security_esm.JSON_parse w _); [done |]. by eexists.
Qed.

(** C4: collecting vulnerabilities never ends in an exception.  Both copies
    of the aggregator return a list for every behaviour of the audit
    command, of the registry and of [JSON.parse]; and the list is empty when
    no source is usable: no audit and a registry without usable answers,
    an audit whose output does not parse, or a failed audit without output
    that parses. *)
Theorem checkVulnerabilities_never_throws
    (w : World) (w' : security_esm.World) (s : state) (out : list string) :
  (∃ found s', checkVulnerabilities w s = (Ok found, s')) ∧
  (∃ found out', security_esm.checkVulnerabilities w' out = (Ok found, out')) ∧
  (is_ok (npm_audit_probe w) = false → registry_unusable w →
   vulnerabilityCache s = ∅ →
   ∃ s', checkVulnerabilities w s = (Ok [], s')) ∧
  (is_ok (npm_audit_probe w) = true →
   (∀ output, npm_audit w = Ok output → is_ok (JSON_parse w output) = false) →
   ∃ s', checkVulnerabilities w s = (Ok [], s')) ∧
  (∀ e, security_esm.npm_audit w' = Throw e →
     (∀ text, stdout e = Some text →
        is_ok (security_esm.JSON_parse w' text) = false) →
     ∃ out', security_esm.checkVulnerabilities w' out = (Ok [], out')) ∧
  (∀ output e, security_esm.npm_audit w' = Ok output →
     security_esm.JSON_parse w' output = Throw e → stdout e = None →
     ∃ out', security_esm.checkVulnerabilities w' out = (Ok [], out')).
Proof.
  split; [apply checkVulnerabilities_returns |].
  split; [apply esm_checkVulnerabilities_returns |].
  split; [| split; [| split]].
  - intros Hprobe Hdown Hempty.
    unfold checkVulnerabilities, try_catch, bind at 1, hasNpmAudit, try_catch.
    unfold bind at 1, lift. destruct (npm_audit_probe w); [done |].
    unfold ret at 1. unfold checkWithNpmRegistry, try_catch, bind, lift.
    destruct (readFile w) as [text|e']; [| by eexists].
    destruct (JSON_parse_manifest w text) as [p|e']; [| by eexists].
    destruct (visit_unusable w (own_entries (checker.allDeps p)) [] s Hdown Hempty)
      as (s' & -> & _).
    by eexists.
  - intros Hprobe Hbad.
    unfold checkVulnerabilities, try_catch, bind at 1, hasNpmAudit, try_catch.
    unfold bind at 1, lift. destruct (npm_audit_probe w); [| done].
    unfold ret at 1. unfold checkWithNpmAudit, try_catch, bind, lift.
    destruct (npm_audit w) as [output|e']; [| by eexists].
    specialize (Hbad output eq_refl). unfold audit_findings, and_then.
    destruct (JSON_parse w output); [done |]. by eexists.
  - intros e Hexec Hno.
    unfold security_esm.checkVulnerabilities, try_catch at 1, bind at 1, lift.
    destruct (security_esm.cwd w') as [directory|e']; [| by eexists].
    destruct (String.eqb directory ""); [by eexists |].
    unfold security_esm.checkWithNpmAudit, try_catch, bind at 1, lift.
    rewrite Hexec.
    destruct (failed_audit_without_output w' e out Hno) as [out' ->].
    by eexists.
  - intros output e Hexec Hparse Hplain.
    unfold security_esm.checkVulnerabilities, try_catch at 1, bind at 1, lift.
    destruct (security_esm.cwd w') as [directory|e']; [| by eexists].
    destruct (String.eqb directory ""); [by eexists |].
    unfold security_esm.checkWithNpmAudit, try_catch, bind at 1, lift.
    rewrite Hexec.
    unfold security_esm.audit_findings, and_then. rewrite Hparse.
    destruct (failed_audit_without_output w' e out) as [out' ->];
      [by rewrite Hplain | by eexists].
Qed.

(** C8, as the code has it: once a request for a [name@version] pair has
    succeeded (the registry answered with an ok status and a body that was
    read without an exception), every later request for the same pair in
    the run is answered from the cache with the same list, and sends
    nothing to the registry, whatever was requested in between. *)
Theorem cached_after_success (w : World) (s : state) name version
    (reply : response) data found (between : list (string * string)) :
  vulnerabilityCache s !! cache_key name version = None →
  fetch w (length (requests s)) (registry_url name version) = Ok reply →
  ok reply = true →
  json reply = Ok data →
  registry_findings name version data = Ok found →
  ∃ s1 s2,
    getPackageVulnerabilities w name version s = (Ok found, s1) ∧
    requests s1 = requests s ++ [registry_url name version] ∧
    request_each w between s1 = (Ok tt, s2) ∧
    getPackageVulnerabilities w name version s2 = (Ok found, s2).
Proof.
  intros Hmiss Hfetch Hok Hjson Hfound.
  pose proof (getPackageVulnerabilities_miss w name version s Hmiss) as Hget.
  cbv zeta in Hget. unfold answer, and_then in Hget.
  rewrite Hfetch, Hok, Hjson, Hfound in Hget. simpl in Hget.
  eexists. 
  destruct (request_each_keeps w between _ (cache_key name version) found
              (lookup_insert_eq _ _ _ : vulnerabilityCache
                 {| console := console s;
                    vulnerabilityCache :=
                      <[cache_key name version := found]> (vulnerabilityCache s);
                    requests := requests s ++ [registry_url name version] |}
                 !! cache_key name version = Some found))
    as (s2 & Heach & Hkept).
  exists s2. split_and!; [exact Hget | done | exact Heach |].
  by apply getPackageVulnerabilities_hit.
Qed.

(** The audit path of [security.js] passes the severity of the entry on as
    it finds it. *)
Lemma audit_record_severity name data r :
  audit_record name data = Ok (Some r) →
  get data "severity" = Ok (severity r).
Proof.
  unfold audit_record, and_then. intros Hr.
  repeat case_match; by simplify_eq.
Qed.

(** Where the source has no severity, the registry path says ["moderate"]. *)
Lemma registry_record_severity name version vuln r :
  registry_record name version vuln = Ok r →
  get vuln "severity" = Ok VUndefined →
  severity r = VStr "moderate".
Proof.
  unfold registry_record, and_then. intros Hr Hs. rewrite Hs in Hr.
  repeat case_match; by simplify_eq.
Qed.

(** So do both loops of the ES-module copy. *)
Lemma esm_audit_record_severity (w : security_esm.World) name data r :
  security_esm.audit_record w name data = Ok (Some r) →
  get data "severity" = Ok VUndefined →
  severity r = VStr "moderate".
Proof.
  unfold security_esm.audit_record, and_then. intros Hr Hs. rewrite Hs in Hr.
  repeat case_match; by simplify_eq.
Qed.

Lemma esm_failure_record_severity name data r :
  security_esm.failure_record name data = Ok r →
  get data "severity" = Ok VUndefined →
  severity r = VStr "moderate".
Proof.
  unfold security_esm.failure_record, and_then. intros Hr Hs. rewrite Hs in Hr.
  repeat case_match; by simplify_eq.
Qed.

(** The ES-module copy reads the output attached to an audit that exits
    with status 1: it returns a record for every entry of the report. *)
Lemma esm_reads_failed_audit (w : security_esm.World) directory e text audit
    found entries records out :
  security_esm.cwd w = Ok directory → directory ≠ "" →
  security_esm.npm_audit w = Throw e →
  status e = Some 1%Z →
  includes (message e) "npm audit" = true →
  security_esm.mentions (stdout e) "found 0 vulnerabilities" = false →
  security_esm.mentions (Some (message e)) "found 0 vulnerabilities" = false →
  stdout e = Some text → text ≠ "" →
  security_esm.JSON_parse w text = Ok audit →
  get audit "vulnerabilities" = Ok found →
  truthy found = true →
  Object_entries found = Ok entries →
  collect (fun entry => pushed <~ security_esm.failure_record entry.1 entry.2;;
                        Ok [pushed]) entries = Ok records →
  security_esm.checkVulnerabilities w out = (Ok records, out).
Proof.
  intros Hcwd Hdir Hexec Hstatus Hmsg Hno1 Hno2 Hout Hne Hparse Hget Htruthy
    Hentries Hrec.
  unfold security_esm.checkVulnerabilities, try_catch at 1, bind at 1, lift.
  rewrite Hcwd. destruct (String.eqb_spec directory ""); [done |].
  unfold security_esm.checkWithNpmAudit, try_catch, bind at 1, lift.
  rewrite Hexec.
  unfold security_esm.failed_audit. rewrite Hno1, Hno2, Hstatus, Hmsg.
  rewrite bool_decide_eq_true_2 by done. simpl andb. cbv iota.
  unfold bind, try_catch, lift, security_esm.failure_findings.
  rewrite Hout. destruct text as [|c rest]; [done |].
  unfold and_then. rewrite Hparse, Hget, Htruthy, Hentries.
  unfold and_then in Hrec. by rewrite Hrec.
Qed.

End security_claims.

(** ** The claims on worked runs of the aggregator *)

Section security_runs.
Import security reports.




(** C6 does not hold on the audit path of [security.js].  The audit exits
    with 0 and prints a report whose one finding has no severity; the record
    that comes back carries [undefined] in that field, not ["moderate"].
    (The registry path of the same file and both loops of the ES-module copy
    apply the default: [registry_record_severity],
    [esm_audit_record_severity], [esm_failure_record_severity].) *)
Theorem audit_path_keeps_missing_severity :
  checkVulnerabilities (audit_prints report_without_severity) fresh =
    (Ok [minimist_finding VUndefined], fresh) ∧
  severity (minimist_finding VUndefined) ≠ VStr "moderate".
Proof. split; [vm_compute; reflexivity | discriminate]. Qed.

(** The same report through the ES-module copy. *)
Example esm_audit_path_defaults_severity :
  security_esm.checkVulnerabilities (esm_audit_prints report_without_severity) [] =
    (Ok [{| name := "minimist";
            version := VStr "unknown";
            severity := VStr "moderate";
            title := VStr "Prototype Pollution";
            url := VStr "https://github.com/advisories/GHSA-xvch-5gv4-984h";
            vulnerable_versions := VStr "<1.2.6";
            patched_versions := VStr "No fix available";
            advisory := VStr "" |}], []).
Proof. vm_compute. reflexivity. Qed.

(** C7 does not hold on [security.js].  The audit exits with status 1 and
    its output is a report with one finding.  [hasNpmAudit] takes the exit
    status for an audit that is not there, the registry is asked instead,
    and nothing of the report comes back.  The ES-module copy reads the
    report off the failure and returns the finding. *)
Theorem failed_audit_report_is_dropped :
  (checkVulnerabilities (audit_exits_1 report_high) fresh).1 = Ok [] ∧
  requests (checkVulnerabilities (audit_exits_1 report_high) fresh).2 =
    ["https://registry.npmjs.org/minimist/1.2.5"] ∧
  security_esm.checkVulnerabilities (esm_audit_exits_1 report_high) [] =
    (Ok [minimist_detected (VStr "high")], []).
Proof. split_and!; vm_compute; reflexivity. Qed.


(** The ES-module copy reads the output of a failure only behind its test
    of the exit status: the same report on a failure without status 1 counts
    as a failed audit. *)
Example esm_reads_only_status_1 :
  security_esm.checkVulnerabilities (esm_audit_killed report_high) [] =
    (Ok [], ["Warning: npm audit failed, skipping vulnerability check"]).
Proof. vm_compute. reflexivity. Qed.

Lemma checkVulnerabilities_never_throws_witness :
  (∃ s', checkVulnerabilities all_down fresh = (Ok [], s')) ∧
  (∃ out', security_esm.checkVulnerabilities esm_all_down [] = (Ok [], out')).
Proof.
  destruct (checkVulnerabilities_never_throws all_down esm_all_down fresh [])
    as (_ & _ & Hdown & _ & Hfailed & _).
  split.
  - apply Hdown; [reflexivity | intros n target name version; reflexivity
                 | reflexivity].
  - apply (Hfailed (exit_error 127 (Some ""))); [reflexivity |].
    intros text [= <-]. reflexivity.
Defined.


(** C8 as it is stated does not hold: the first request for
    [minimist@1.2.5] is answered with an error status, nothing is cached,
    and the second request for the same pair goes to the registry again. *)
Lemma failed_request_is_sent_again :
  ∃ s1 s2,
    getPackageVulnerabilities recovering "minimist" "1.2.5" fresh = (Ok [], s1) ∧
    vulnerabilityCache s1 !! cache_key "minimist" "1.2.5" = None ∧
    getPackageVulnerabilities recovering "minimist" "1.2.5" s1 =
      (Ok [minimist_advisory], s2) ∧
    requests s2 = ["https://registry.npmjs.org/minimist/1.2.5";
                   "https://registry.npmjs.org/minimist/1.2.5"].
Proof.
  eexists _, _. split_and!; [vm_compute; reflexivity | vm_compute; reflexivity
                             | vm_compute; reflexivity | reflexivity].
Qed.

Lemma cached_after_success_witness :
  ∃ s1 s2,
    getPackageVulnerabilities recovering "minimist" "1.2.5" after_failure =
      (Ok [minimist_advisory], s1) ∧
    requests s1 = requests after_failure ++
                  [registry_url "minimist" "1.2.5"] ∧
    request_each recovering [("chalk", "4.1.0"); ("minimist", "1.2.5")] s1 =
      (Ok tt, s2) ∧
    getPackageVulnerabilities recovering "minimist" "1.2.5" s2 =
      (Ok [minimist_advisory], s2).
Proof.
  apply (cached_after_success recovering after_failure "minimist" "1.2.5"
           {| ok := true; http_status := 200; json := Ok advisory_document |}
           advisory_document [minimist_advisory]
           [("chalk", "4.1.0"); ("minimist", "1.2.5")]).
  - vm_compute. reflexivity.
  - vm_compute. reflexivity.
  - reflexivity.
  - reflexivity.
  - vm_compute. reflexivity.
Defined.

End security_runs.

(** * Further properties of the checker *)

Section checker_more.
Context `{semver.Grammar} (w : checker.World).
Import checker.

(** The loop appends to [found], in the order of the entries, at most one
    record per entry, named after it, and none for a skipped entry. *)
Lemma scan_names p entries found out result out' :
  scan w p entries found out = (Ok result, out') →
  ∃ extra, result = found ++ extra ∧
           (name <$> extra) `sublist_of` entries.*1 ∧
           Forall (λ r, skipped (current r) = false) extra.
Proof.
  revert found out. induction entries as [|[k v] entries IH];
    intros found out Hscan.
  - unfold scan, ret in Hscan. simplify_eq. exists []. by rewrite app_nil_r.
  - simpl in Hscan. destruct v; try (by unfold throw in Hscan).
    fold (skipped s) in Hscan. destruct (skipped s) eqn:Hskip.
    + destruct (IH _ _ Hscan) as (extra & -> & Hsub & Hall).
      exists extra. split_and!; [done | by apply sublist_cons | done].
    + unfold bind in Hscan.
      pose proof (attempt_pushes w p k s out) as Hpush.
      destruct (attempt w p k s out) as [[pushed|e] out1]; [| done].
      destruct (IH _ _ Hscan) as (extra & -> & Hsub & Hall).
      exists (option_list pushed ++ extra). rewrite app_assoc.
      split; [done |]. destruct pushed as [r|]; simpl.
      * assert (Hy : yields w p k s r) by (by apply Hpush).
        apply yields_inv in Hy as (? & l & ? & ? & _ & _ & _ & _ & _ & ->).
        simpl. split; [by apply sublist_skip |].
        apply Forall_cons. by split.
      * split; [by apply sublist_cons | done].
Qed.

(** X1: the names of the returned records are pairwise distinct, and they
    come in the order in which the merged dependency object enumerates its
    keys: a package that is declared in several buckets is reported once. *)
Theorem records_are_distinct_and_ordered p out result out' :
  loads w p →
  checkDependencies w out = (Ok result, out') →
  (name <$> result) `sublist_of` (own_entries (allDeps p)).*1 ∧
  NoDup (name <$> result).
Proof.
  intros Hp Hc. apply checkDependencies_inv in Hc as (p' & Hp' & Hscan).
  rewrite <- (loads_unique w _ _ Hp Hp') in Hscan.
  apply scan_names in Hscan as (extra & -> & Hsub & _). simpl.
  split; [done |]. eapply sublist_NoDup; [| exact Hsub].
  rewrite own_entries_Permutation. apply allDeps_NoDup.
Qed.

(** X2: a dependency whose merged range starts with [file:] or [git+] is
    never reported, whatever the registry would say about its name; and no
    returned record carries such a range. *)
Theorem local_and_git_dependencies_are_never_reported p out result out' pkg cv :
  loads w p →
  checkDependencies w out = (Ok result, out') →
  (pkg, VStr cv) ∈ allDeps p →
  skipped cv = true →
  (∀ r, r ∈ result → name r ≠ pkg) ∧
  (∀ r, r ∈ result → skipped (current r) = false).
Proof.
  intros Hp Hc Hin Hskip.
  apply checkDependencies_records in Hc as (p' & Hp' & Hrec).
  rewrite <- (loads_unique w _ _ Hp Hp') in Hrec. split.
  - intros r Hr Hname. apply Hrec in Hr as (n & cv' & Hin' & Hs & Hy).
    apply yields_inv in Hy as (? & l & ? & ? & _ & _ & _ & _ & _ & ->).
    simpl in Hname. subst n. rewrite own_entries_Permutation in Hin'.
    pose proof (allDeps_NoDup p) as Hnd.
    pose proof (elem_of_obj_get _ _ _ Hnd Hin) as Hg.
    pose proof (elem_of_obj_get _ _ _ Hnd Hin') as Hg'.
    simplify_eq. congruence.
  - intros r Hr. apply Hrec in Hr as (n & cv' & _ & Hs & Hy).
    apply yields_inv in Hy as (? & l & ? & ? & _ & _ & _ & _ & _ & ->).
    done.
Qed.

Lemma scan_all_skipped p entries found out :
  Forall (λ e, ∃ cv, e.2 = VStr cv ∧ skipped cv = true) entries →
  scan w p entries found out = (Ok found, out).
Proof.
  induction 1 as [|[k v] entries (cv & Hv & Hs) _ IH]; [done |].
  simpl in Hv. subst v. simpl. fold (skipped cv). by rewrite Hs.
Qed.

(** X3: a manifest without dependencies, or with none but local and
    repository packages, gives the empty result and prints nothing. *)
Theorem nothing_to_check_is_silent p out :
  loads w p →
  Forall (λ e, ∃ cv, e.2 = VStr cv ∧ skipped cv = true) (allDeps p) →
  checkDependencies w out = (Ok [], out).
Proof.
  intros Hp Hall. rewrite (checkDependencies_loads w p out Hp).
  rewrite scan_all_skipped; [done |]. by rewrite own_entries_Permutation.
Qed.

(** X4: a manifest that cannot be found, read or parsed is fatal: the call
    throws an [Error] whose message is ["Error checking dependencies: "]
    followed by the message of the step that failed, and prints nothing. *)
Theorem manifest_failure_is_fatal e out :
  access w = Throw e ∨
  (access w = Ok tt ∧ readFile w = Throw e) ∨
  (∃ text, access w = Ok tt ∧ readFile w = Ok text ∧
           JSON_parse_manifest w text = Throw e) →
  checkDependencies w out =
    (Throw (Error ("Error checking dependencies: " +:+ message e)), out).
Proof.
  unfold checkDependencies, try_catch, bind, lift, throw.
  intros [Ha|[[Ha Hr]|(text & Ha & Hr & Hp)]].
  - by rewrite Ha.
  - by rewrite Ha, Hr.
  - by rewrite Ha, Hr, Hp.
Qed.

Lemma scan_throws p entries found out :
  ¬ Forall (λ e, ∃ cv, e.2 = VStr cv) entries →
  ∃ k v, (k, v) ∈ entries ∧ (∀ cv, v ≠ VStr cv) ∧
         (scan w p entries found out).1 = Throw (no_startsWith v).
Proof.
  revert found out. induction entries as [|[k v] entries IH];
    intros found out Hnot.
  - exfalso. apply Hnot. constructor.
  - assert (Hcase : (∃ cv, v = VStr cv) ∨ (∀ cv, v ≠ VStr cv)).
    { destruct v; first [by left; eexists | by right]. }
    destruct Hcase as [[cv ->]|Hv].
    + assert (Hrest : ¬ Forall (λ e, ∃ cv, e.2 = VStr cv) entries).
      { intros Hall. apply Hnot. constructor; [by exists cv | done]. }
      assert (Hgo : ∀ found' out1,
                ∃ k' v', (k', v') ∈ (k, VStr cv) :: entries ∧
                         (∀ cv', v' ≠ VStr cv') ∧
                         (scan w p entries found' out1).1 = Throw (no_startsWith v')).
      { intros found' out1.
        destruct (IH found' out1 Hrest) as (k' & v' & Hin & Hv' & Hthrow).
        exists k', v'. split_and!; [apply elem_of_cons; by right | done | done]. }
      simpl. case_match; [apply Hgo |].
      unfold bind.
      destruct (attempt_returns w p k cv out) as [pushed Hp].
      destruct (attempt w p k cv out) as [r out1]. simpl in Hp. subst r.
      apply Hgo.
    + exists k, v. split_and!; [apply elem_of_cons; by left | done |].
      destruct v; try done. by destruct (Hv s).
Qed.

(** X5: one range that is not a string fails the whole check: the call
    throws (the [TypeError] of calling [startsWith] on that value, wrapped),
    and returns no record of the other packages either. *)
Theorem non_string_range_is_fatal p out pkg v :
  loads w p →
  (pkg, v) ∈ allDeps p →
  (∀ cv, v ≠ VStr cv) →
  ∃ bad out',
    (∀ cv, bad ≠ VStr cv) ∧
    checkDependencies w out =
      (Throw (Error ("Error checking dependencies: "
                     +:+ message (no_startsWith bad))), out').
Proof.
  intros Hp Hin Hv.
  assert (Hnot : ¬ Forall (λ e, ∃ cv, e.2 = VStr cv) (own_entries (allDeps p))).
  { rewrite own_entries_Permutation. intros Hall.
    rewrite Forall_forall in Hall. destruct (Hall _ Hin) as [cv Hcv].
    by apply (Hv cv). }
  destruct (scan_throws p _ [] out Hnot) as (k & bad & _ & Hbad & Hthrow).
  rewrite (checkDependencies_loads w p out Hp).
  destruct (scan w p (own_entries (allDeps p)) [] out) as [r out'].
  simpl in Hthrow. subst r. by exists bad, out'.
Qed.

End checker_more.

(** * The operator prefix and the bare version *)

Section prefix_facts.
Import checker updater.

Lemma append_String c (a b : string) : String c a +:+ b = String c (a +:+ b).
Proof. reflexivity. Qed.

Lemma strip_length version :
  String.length (strip_range_operators version) ≤ String.length version.
Proof.
  induction version as [|c version IH]; simpl; [done |].
  destruct (is_range_operator c); simpl; lia.
Qed.

(** A string that the checker leaves as it is starts with no operator. *)
Lemma strip_fixpoint_prefix version :
  strip_range_operators version = version → getVersionPrefix version = "".
Proof.
  destruct version as [|c version]; simpl; [done |].
  destruct (is_range_operator c); [| done].
  intros Heq. pose proof (strip_length version) as Hlen.
  rewrite Heq in Hlen. simpl in Hlen. lia.
Qed.

Lemma prefix_app operators rest :
  semver.all_chars is_range_operator operators = true →
  getVersionPrefix (operators +:+ rest) = operators +:+ getVersionPrefix rest ∧
  strip_range_operators (operators +:+ rest) = strip_range_operators rest.
Proof.
  induction operators as [|c operators IH]; simpl; [done |].
  rewrite append_String. simpl.
  destruct (is_range_operator c); simpl; [| done].
  intros Hall. by destruct (IH Hall) as [-> ->].
Qed.

Lemma prefix_operators version :
  semver.all_chars is_range_operator (getVersionPrefix version) = true.
Proof.
  induction version as [|c version IH]; simpl; [done |].
  destruct (is_range_operator c) eqn:Hc; simpl; [by rewrite Hc | done].
Qed.

(** X6: the prefix that the updater keeps and the bare version that the
    checker compares are the two halves of the declared range: put together
    they give the range back, the prefix holds operator characters only,
    and the bare version starts with none. *)
Theorem prefix_and_bare_version_partition version :
  getVersionPrefix version +:+ strip_range_operators version = version ∧
  semver.all_chars is_range_operator (getVersionPrefix version) = true ∧
  getVersionPrefix (strip_range_operators version) = "".
Proof.
  split_and!; [| apply prefix_operators |].
  - induction version as [|c version IH]; simpl; [done |].
    destruct (is_range_operator c); simpl; [| done].
    by rewrite append_String, IH.
  - induction version as [|c version IH]; simpl; [done |].
    destruct (is_range_operator c) eqn:Hc; [done |]. simpl. by rewrite Hc.
Qed.

(** X7: the range the updater writes, the old prefix in front of the latest
    version, keeps the operator of the old range and has the latest version
    as its bare version, provided the latest version starts with no
    operator character. *)
Theorem rewritten_range_keeps_operator currentVersion latest :
  strip_range_operators latest = latest →
  getVersionPrefix (getVersionPrefix currentVersion +:+ latest) =
    getVersionPrefix currentVersion ∧
  strip_range_operators (getVersionPrefix currentVersion +:+ latest) = latest.
Proof.
  intros Hbare.
  destruct (prefix_app (getVersionPrefix currentVersion) latest
              (prefix_operators currentVersion)) as [-> ->].
  rewrite (strip_fixpoint_prefix latest Hbare), Hbare. split; [| done].
  induction (getVersionPrefix currentVersion) as [|c s IH]; [done |].
  by rewrite append_String, IH.
Qed.

End prefix_facts.

(** * The ordering of versions *)

Section order_facts.
Import semver.

Lemma string_compare_refl (s : string) : String.compare s s = Eq.
Proof.
  induction s as [|c s IH]; simpl; [done |].
  assert (Hc : Ascii.compare c c = Eq).
  { unfold Ascii.compare. apply N.compare_refl. }
  by rewrite Hc.
Qed.

Lemma compareIdentifiers_refl a : compareIdentifiers a a = Eq.
Proof. destruct a; simpl; [apply N.compare_refl | apply string_compare_refl]. Qed.

Lemma comparePreLoop_refl a : comparePreLoop a a = Eq.
Proof.
  induction a as [|x a IH]; simpl; [done |].
  by rewrite compareIdentifiers_refl.
Qed.

Lemma compare_refl v : compare v v = Eq.
Proof.
  unfold compare, compareMain, comparePre. rewrite !N.compare_refl.
  destruct (prerelease v) eqn:Hp; [done |]. rewrite <- Hp.
  apply comparePreLoop_refl.
Qed.

End order_facts.

(** * The checker after an update *)

Section after_update.
Context `{semver.Grammar} (w : checker.World).
Import checker updater.


End after_update.

(** * Versions of the strict grammar *)

Section strict_facts.
Import checker semver.

Lemma trimEnd_String c s :
  is_space c = false → ∃ t, trimEnd (String c s) = String c t.
Proof.
  intros Hc. simpl. destruct (trimEnd s); [rewrite Hc |]; eauto.
Qed.

Lemma cut_String sep c s :
  Ascii.eqb c sep = false →
  ∃ a b, cut sep (String c s) = (String c a, b).
Proof. intros Hc. simpl. rewrite Hc. destruct (cut sep s). eauto. Qed.

Lemma split_String sep c s :
  Ascii.eqb c sep = false →
  ∃ piece pieces, split sep (String c s) = String c piece :: pieces.
Proof. intros Hc. simpl. rewrite Hc. destruct (split sep s); eauto. Qed.

(** A string that starts with an operator character spells no version. *)
Lemma operator_is_no_version c s :
  is_range_operator c = true → parse_version (String c s) = None.
Proof.
  intros Hc.
  assert (Hfacts : is_space c = false ∧ Ascii.eqb c "v" = false ∧
                   Ascii.eqb c "+" = false ∧ Ascii.eqb c "-" = false ∧
                   Ascii.eqb c "." = false ∧ is_digit c = false ∧
                   Ascii.eqb c "0" = false).
  { unfold is_range_operator in Hc. simpl in Hc.
    repeat (apply orb_prop in Hc as [Hc|Hc]);
      try (apply Ascii.eqb_eq in Hc as ->; by vm_compute). done. }
  destruct Hfacts as (Hsp & Hv & Hplus & Hdash & Hdot & Hdig & Hzero).
  unfold parse_version. case_match; [done |].
  unfold trim. cbn [trimStart]. rewrite Hsp.
  destruct (trimEnd_String c s Hsp) as [t ->].
  cbn [strip_v]. rewrite Hv.
  destruct (cut_String "+" c t Hplus) as (a & build & ->).
  destruct (cut_String "-" c a Hdash) as (m & pre & ->).
  case_match; [| done].
  destruct (split_String "." c m Hdot) as (piece & pieces & ->).
  assert (Hmain : main_identifier (String c piece) = None).
  { unfold main_identifier, numeric_identifier. simpl.
    destruct piece; simpl; rewrite ?Hzero, ?Hdig; done. }
  repeat case_match; simplify_eq; done.
Qed.

(** A version of the strict grammar starts with no operator character, so
    the checker's stripping leaves it as it is. *)
Lemma strict_version_is_bare l sl :
  parse_version l = Some sl → strip_range_operators l = l.
Proof.
  destruct l as [|c l]; simpl; [done |].
  destruct (is_range_operator c) eqn:Hc; [| done].
  by rewrite (operator_is_no_version c l Hc).
Qed.

End strict_facts.

(** * The updater *)

Section updater_facts.
Context (w : updater.World).
Import checker updater.

Lemma prints_only_ret {A} (a : A) : prints_only (ret a).
Proof. by intros s. Qed.

Lemma prints_only_throw {A} e : prints_only (throw (A := A) e).
Proof. by intros s. Qed.

Lemma prints_only_lift {A} (r : result A) : prints_only (lift r).
Proof. by intros s. Qed.

Lemma prints_only_print line : prints_only (print line).
Proof. by intros s. Qed.

Lemma prints_only_printing {A} (m : M checker.console A) :
  prints_only (printing m).
Proof. intros s. unfold printing. by destruct (m (console s)). Qed.

Lemma prints_only_bind {A B} (m : M state A) (k : A → M state B) :
  prints_only m → (∀ a, prints_only (k a)) → prints_only (bind m k).
Proof.
  intros Hm Hk s. unfold bind. destruct (Hm s) as [Hw0 Hc0].
  destruct (m s) as [[a|e] s1]; simpl in *; [| done].
  destruct (Hk a s1) as [Hw Hc]. split; congruence.
Qed.

Lemma prints_only_try_catch {A} (m : M state A) h :
  prints_only m → (∀ e, prints_only (h e)) → prints_only (try_catch m h).
Proof.
  intros Hm Hh s. unfold try_catch. destruct (Hm s) as [Hw0 Hc0].
  destruct (m s) as [[a|e] s1]; simpl in *; [done |].
  destruct (Hh e s1) as [Hw Hc]. split; congruence.
Qed.

Ltac solve_prints_only :=
  repeat first
    [ apply prints_only_ret | apply prints_only_throw | apply prints_only_lift
    | apply prints_only_print | apply prints_only_printing
    | apply prints_only_bind | apply prints_only_try_catch
    | intros ? | case_match ].

Lemma update_entry_prints_only d bucket pkg :
  prints_only (update_entry d bucket pkg).
Proof. unfold update_entry. solve_prints_only. Qed.

Lemma update_entries_prints_only d bucket updates :
  prints_only (update_entries d bucket updates).
Proof.
  revert bucket. induction updates as [|pkg updates IH]; intros bucket.
  - apply prints_only_ret.
  - simpl. apply prints_only_bind; [apply update_entry_prints_only | done].
Qed.

Lemma updateDependenciesInPackageJson_prints_only p d updates :
  prints_only (updateDependenciesInPackageJson p d updates).
Proof.
  unfold updateDependenciesInPackageJson.
  apply prints_only_bind; [apply update_entries_prints_only |].
  intros. apply prints_only_ret.
Qed.

Lemma apply_updates_prints_only o p updates :
  prints_only (apply_updates o p updates).
Proof.
  unfold apply_updates.
  repeat first [ apply updateDependenciesInPackageJson_prints_only
               | apply prints_only_ret | apply prints_only_bind
               | intros ? | case_match ].
Qed.

(** *** One entry *)

Lemma obj_get_key (o : object) k v : obj_get o k = Some v → k ∈ o.*1.
Proof.
  intros Hget. destruct (decide (k ∈ o.*1)) as [|Hout]; [done |].
  apply obj_get_None in Hout. congruence.
Qed.

Lemma update_entry_keys d bucket pkg s bucket' s' :
  update_entry d bucket pkg s = (Ok bucket', s') → bucket'.*1 = bucket.*1.
Proof.
  unfold update_entry, bind, lift, print, ret, throw. intros Hu.
  destruct (obj_get bucket (name pkg)) as [v|] eqn:Hget.
  - destruct v; repeat case_match; simplify_eq; try done.
    rewrite obj_set_keys. rewrite decide_True; [done |].
    by eapply obj_get_key.
  - repeat case_match; by simplify_eq.
Qed.

Lemma update_entry_other d bucket pkg s bucket' s' k :
  update_entry d bucket pkg s = (Ok bucket', s') →
  name pkg ≠ k → obj_get bucket' k = obj_get bucket k.
Proof.
  unfold update_entry, bind, lift, print, ret, throw. intros Hu Hk.
  destruct (obj_get bucket (name pkg)) as [v|] eqn:Hget.
  - destruct v; repeat case_match; simplify_eq; try done.
    by apply obj_get_set_ne.
  - repeat case_match; by simplify_eq.
Qed.

Lemma update_entry_named d bucket pkg s bucket' s' cv :
  update_entry d bucket pkg s = (Ok bucket', s') →
  obj_get bucket (name pkg) = Some (VStr cv) → cv ≠ "" →
  ∃ text, ToString (latest pkg) = Ok text ∧
    obj_get bucket' (name pkg) = Some (VStr (getVersionPrefix cv +:+ text)).
Proof.
  unfold update_entry, bind, lift, print, ret, throw. intros Hu Hget Hne.
  rewrite Hget in Hu. destruct (String.eqb_spec cv ""); [done |].
  destruct (ToString (latest pkg)) as [text|e]; [| done].
  simplify_eq. exists text. split; [done |]. apply obj_get_set_eq.
Qed.

(** *** One bucket *)

Lemma update_entries_keys d bucket updates s bucket' s' :
  update_entries d bucket updates s = (Ok bucket', s') →
  bucket'.*1 = bucket.*1.
Proof.
  revert bucket s. induction updates as [|pkg updates IH]; intros bucket s Hu.
  - unfold update_entries, ret in Hu. by simplify_eq.
  - simpl in Hu. unfold bind in Hu.
    destruct (update_entry d bucket pkg s) as [[b1|e] s1] eqn:H1; [| done].
    rewrite (IH _ _ Hu). by eapply update_entry_keys.
Qed.

Lemma update_entries_other d bucket updates s bucket' s' k :
  update_entries d bucket updates s = (Ok bucket', s') →
  (∀ pkg, pkg ∈ updates → name pkg ≠ k) →
  obj_get bucket' k = obj_get bucket k.
Proof.
  revert bucket s. induction updates as [|pkg updates IH];
    intros bucket s Hu Hk.
  - unfold update_entries, ret in Hu. by simplify_eq.
  - simpl in Hu. unfold bind in Hu.
    destruct (update_entry d bucket pkg s) as [[b1|e] s1] eqn:H1; [| done].
    rewrite (IH _ _ Hu) by (intros; apply Hk; apply elem_of_cons; by right).
    eapply update_entry_other; [done |]. apply Hk. apply elem_of_cons. by left.
Qed.

Lemma update_entries_named d bucket updates s bucket' s' pkg cv :
  update_entries d bucket updates s = (Ok bucket', s') →
  NoDup (name <$> updates) →
  pkg ∈ updates →
  obj_get bucket (name pkg) = Some (VStr cv) → cv ≠ "" →
  ∃ text, ToString (latest pkg) = Ok text ∧
    obj_get bucket' (name pkg) = Some (VStr (getVersionPrefix cv +:+ text)).
Proof.
  revert bucket s. induction updates as [|first updates IH];
    intros bucket s Hu Hnd Hin Hget Hne.
  - by apply elem_of_nil in Hin.
  - simpl in Hu. unfold bind in Hu.
    destruct (update_entry d bucket first s) as [[b1|e] s1] eqn:H1; [| done].
    rewrite fmap_cons in Hnd. apply NoDup_cons in Hnd as [Hfresh Hnd].
    apply elem_of_cons in Hin as [->|Hin].
    + destruct (update_entry_named _ _ _ _ _ _ _ H1 Hget Hne) as (text & Ht & Hg).
      exists text. split; [done |].
      rewrite (update_entries_other _ _ _ _ _ _ _ Hu); [done |].
      intros pkg Hpkg Heq. apply Hfresh. rewrite <- Heq.
      apply list_elem_of_fmap. by exists pkg.
    + apply (IH b1 s1 Hu Hnd Hin); [| done].
      rewrite (update_entry_other _ _ _ _ _ _ _ H1); [done |].
      intros Heq. apply Hfresh. rewrite Heq.
      apply list_elem_of_fmap. by exists pkg.
Qed.

Lemma bucket_of_with_bucket p d bucket :
  bucket_of (with_bucket p d bucket) d = Some bucket.
Proof. by destruct d. Qed.

Lemma bucket_of_with_bucket_ne p d d' bucket :
  d' ≠ d → bucket_of (with_bucket p d bucket) d' = bucket_of p d'.
Proof. by destruct d, d'. Qed.

Lemma updateDependenciesInPackageJson_inv p d updates s p' s' :
  updateDependenciesInPackageJson p d updates s = (Ok p', s') →
  ∃ bucket',
    update_entries d (default [] (bucket_of p d)) updates s = (Ok bucket', s') ∧
    p' = with_bucket p d bucket'.
Proof.
  unfold updateDependenciesInPackageJson, bind, ret. intros Hu.
  destruct (update_entries d _ updates s) as [[b|e] s1]; [| done].
  simplify_eq. by exists b.
Qed.

(** X9: rewriting a bucket changes ranges and nothing else.  The bucket
    keeps its packages, in their order (a missing bucket becomes an empty
    one); the other two buckets are as they were; a package that no record
    names keeps its range; and no file is written and no command run. *)
Theorem update_changes_ranges_only p d updates s p' s' :
  updateDependenciesInPackageJson p d updates s = (Ok p', s') →
  packages p' d = packages p d ∧
  (∀ d', d' ≠ d → bucket_of p' d' = bucket_of p d') ∧
  (∀ k, (∀ pkg, pkg ∈ updates → name pkg ≠ k) →
        own (bucket_of p' d) k = own (bucket_of p d) k) ∧
  written s' = written s ∧ commands s' = commands s.
Proof.
  intros Hu. unfold packages.
  destruct (updateDependenciesInPackageJson_prints_only p d updates s)
    as [Hw Hc].
  rewrite Hu in Hw, Hc. simpl in Hw, Hc.
  apply updateDependenciesInPackageJson_inv in Hu as (b & Hu & ->).
  rewrite bucket_of_with_bucket. simpl. split_and!; try done.
  - by eapply update_entries_keys.
  - intros d' Hd. by apply bucket_of_with_bucket_ne.
  - intros k Hk. rewrite (update_entries_other _ _ _ _ _ _ k Hu Hk).
    by destruct (bucket_of p d).
Qed.


(** X10: a record whose package the bucket declares with a non-empty string
    range has that range rewritten to the operator prefix of the old range
    followed by the latest version of the record. *)
Theorem update_writes_prefix_and_latest p d updates s p' s' pkg cv :
  updateDependenciesInPackageJson p d updates s = (Ok p', s') →
  NoDup (name <$> updates) →
  pkg ∈ updates →
  own (bucket_of p d) (name pkg) = Some (VStr cv) →
  cv ≠ "" →
  ∃ text, ToString (latest pkg) = Ok text ∧
    own (bucket_of p' d) (name pkg) =
      Some (VStr (getVersionPrefix cv +:+ text)).
Proof.
  intros Hu Hnd Hin Hown Hne.
  apply updateDependenciesInPackageJson_inv in Hu as (b & Hu & ->).
  rewrite bucket_of_with_bucket. simpl.
  apply (update_entries_named _ _ _ _ _ _ _ _ Hu Hnd Hin); [| done].
  destruct (bucket_of p d); [done | discriminate].
Qed.

End updater_facts.

Section update_facts.
Context (w : updater.World).
Import checker updater.

Lemma depType_cases (d' d : depType) : d' = d ∨ d' ≠ d.
Proof. destruct d', d; first [by left | by right]. Qed.

Lemma guarded_update_frame (b : bool) p d l s p' s' :
  (if b then updateDependenciesInPackageJson p d l else ret p) s = (Ok p', s') →
  (∀ d', packages p' d' = packages p d') ∧
  (∀ d', d' ≠ d → bucket_of p' d' = bucket_of p d') ∧
  (b = false → p' = p) ∧
  (∀ d' k, (∀ pkg, pkg ∈ l → name pkg ≠ k) →
           own (bucket_of p' d') k = own (bucket_of p d') k) ∧
  written s' = written s ∧ commands s' = commands s.
Proof.
  destruct b; intros Hu.
  - destruct (updateDependenciesInPackageJson_prints_only p d l s) as [Hw Hc].
    rewrite Hu in Hw, Hc. simpl in Hw, Hc.
    apply updateDependenciesInPackageJson_inv in Hu as (bucket & Hu & ->).
    assert (Hframe : ∀ d', d' ≠ d →
              bucket_of (with_bucket p d bucket) d' = bucket_of p d')
      by (intros; by apply bucket_of_with_bucket_ne).
    split_and!; try done.
    + intros d'. unfold packages.
      destruct (depType_cases d' d) as [->|Hd]; [| by rewrite Hframe].
      rewrite bucket_of_with_bucket. simpl. by eapply update_entries_keys.
    + intros d' k Hk.
      destruct (depType_cases d' d) as [->|Hd]; [| by rewrite Hframe].
      rewrite bucket_of_with_bucket. simpl.
      rewrite (update_entries_other _ _ _ _ _ _ k Hu Hk).
      by destruct (bucket_of p d).
  - unfold ret in Hu. by simplify_eq.
Qed.

Lemma elem_of_of_type t (updates : list outdated) pkg :
  pkg ∈ of_type t updates → pkg ∈ updates ∧ type pkg = t.
Proof. unfold of_type. rewrite list_elem_of_filter. tauto. Qed.

Lemma apply_updates_frame o p updates s p' s' :
  apply_updates o p updates s = (Ok p', s') →
  (∀ d, packages p' d = packages p d) ∧
  (dev o = false → devDependencies p' = devDependencies p) ∧
  (peer o = false → peerDependencies p' = peerDependencies p) ∧
  (∀ d k, (∀ pkg, pkg ∈ updates → name pkg ≠ k) →
          own (bucket_of p' d) k = own (bucket_of p d) k) ∧
  (updated o updates = false → p' = p) ∧
  written s' = written s ∧ commands s' = commands s.
Proof.
  unfold apply_updates, bind. intros Hu.
  destruct ((if nonempty (of_type "prod" updates)
             then updateDependenciesInPackageJson p in_dependencies
                    (of_type "prod" updates)
             else ret p) s) as [[p1|e1] s1] eqn:H1; [| done].
  destruct ((if dev o && nonempty (of_type "dev" updates)
             then updateDependenciesInPackageJson p1 in_devDependencies
                    (of_type "dev" updates)
             else ret p1) s1) as [[p2|e2] s2] eqn:H2; [| done].
  apply guarded_update_frame in H1 as (K1 & F1 & B1 & N1 & W1 & C1).
  apply guarded_update_frame in H2 as (K2 & F2 & B2 & N2 & W2 & C2).
  apply guarded_update_frame in Hu as (K3 & F3 & B3 & N3 & W3 & C3).
  split_and!.
  - intros d. by rewrite K3, K2, K1.
  - intros Hdev.
    change (bucket_of p' in_devDependencies = bucket_of p in_devDependencies).
    rewrite F3, B2, F1; by rewrite ?Hdev.
  - intros Hpeer.
    change (bucket_of p' in_peerDependencies = bucket_of p in_peerDependencies).
    rewrite B3, F2, F1; by rewrite ?Hpeer.
  - intros d k Hk.
    rewrite N3, N2, N1; [done | ..];
      intros pkg Hpkg; apply Hk; by apply elem_of_of_type in Hpkg as [? _].
  - unfold updated. intros Hno.
    apply orb_false_iff in Hno as [Hno H3].
    apply orb_false_iff in Hno as [H1 H2].
    by rewrite B3, B2, B1.
  - congruence.
  - congruence.
Qed.

Lemma install_runs packageManager s :
  (install w packageManager s).1 = Ok tt ∧
  written (install w packageManager s).2 = written s ∧
  commands (install w packageManager s).2 =
    commands s ++ [install_command packageManager].
Proof.
  unfold install, try_catch, bind, run, print.
  by destruct (execSync w (install_command packageManager)).
Qed.

(** What a run of the body of the [try] comes to. *)
Lemma update_manifest_outcome path packageManager outdated o s r s' :
  update_manifest w path packageManager outdated o s = (r, s') →
  (written s' = written s ∧ commands s' = commands s ∧
   ∀ updates, selection w outdated o = Ok updates →
              updated o updates = true → ∃ e, r = Throw e) ∨
  (r = Ok tt ∧
   ∃ text p updates p' s0,
     readFile w path = Ok text ∧
     JSON_parse_manifest w text = Ok p ∧
     selection w outdated o = Ok updates ∧
     updated o updates = true ∧
     apply_updates o p updates s = (Ok p', s0) ∧
     written s' = written s ++ [(path, p')] ∧
     commands s' = commands s ++ [install_command packageManager]).
Proof.
  unfold update_manifest, bind, lift. intros Hu.
  destruct (readFile w path) as [text|e] eqn:Hread;
    [| simplify_eq; left; split_and!; try done; by eexists].
  destruct (JSON_parse_manifest w text) as [p|e] eqn:Hparse;
    [| simplify_eq; left; split_and!; try done; by eexists].
  assert (Hsel : ∃ sel, selection w outdated o = sel ∧
            (if auto o then ret outdated else (λ s, (prompt w outdated, s))) s
            = (sel, s)).
  { unfold selection, ret. destruct (auto o); by eexists. }
  destruct Hsel as (sel & Hsel & Hrun). rewrite Hrun in Hu.
  destruct sel as [updates|e];
    [| simplify_eq; left; split_and!; try done; by eexists].
  destruct updates as [|pkg updates].
  { unfold print in Hu. simplify_eq. left. split_and!; try done.
    intros updates Hs. rewrite Hsel in Hs. simplify_eq.
    unfold updated. simpl. by rewrite !andb_false_r. }
  destruct (apply_updates o p (pkg :: updates) s) as [[p'|e] s0] eqn:Happly.
  2: { destruct (apply_updates_prints_only o p (pkg :: updates) s) as [Hw Hc].
       rewrite Happly in Hw, Hc. simplify_eq. left.
       split_and!; try done. by eexists. }
  destruct (apply_updates_frame _ _ _ _ _ _ Happly)
    as (_ & _ & _ & _ & _ & Hw & Hc).
  destruct (updated o (pkg :: updates)) eqn:Hupdated.
  2: { unfold print in Hu. simplify_eq. left. split_and!; try done.
       intros updates' Hs. rewrite Hsel in Hs. simplify_eq. congruence. }
  unfold save in Hu.
  destruct (writeFile w path p') as [[]|e] eqn:Hwrite.
  2: { simplify_eq. left. split_and!; try done. by eexists. }
  unfold print in Hu. cbv beta iota in Hu.
  match type of Hu with install w _ ?s1 = _ =>
    destruct (install_runs packageManager s1) as (Hr & Hw1 & Hc1);
    rewrite Hu in Hr, Hw1, Hc1; simpl in Hr, Hw1, Hc1
  end.
  right. split; [done |].
  exists text, p, (pkg :: updates), p', s0.
  split_and!; try done; congruence.
Qed.

Lemma detectPackageManager_prints_only :
  prints_only (printing (manager.detectPackageManager (platform w))).
Proof. apply prints_only_printing. Qed.

(** What a call comes to. *)
Lemma updateDependencies_outcome outdated o s r s' :
  updateDependencies w outdated o s = (r, s') →
  (written s' = written s ∧ commands s' = commands s ∧
   ∀ directory updates,
     manager.cwd (platform w) = Ok directory →
     selection w outdated o = Ok updates →
     updated o updates = true → ∃ e, r = Throw e) ∨
  (r = Ok tt ∧
   ∃ directory packageManager text p updates p' s0 s1,
     manager.cwd (platform w) = Ok directory ∧ directory ≠ "" ∧
     (manager.detectPackageManager (platform w) (console s)).1
       = Ok packageManager ∧
     readFile w (manifest_path w directory) = Ok text ∧
     JSON_parse_manifest w text = Ok p ∧
     selection w outdated o = Ok updates ∧
     updated o updates = true ∧
     apply_updates o p updates s0 = (Ok p', s1) ∧
     written s' = written s ++ [(manifest_path w directory, p')] ∧
     commands s' = commands s ++ [install_command packageManager]).
Proof.
  unfold updateDependencies, bind, lift. intros Hu.
  destruct (manager.cwd (platform w)) as [directory|e] eqn:Hcwd;
    [| simplify_eq; left; split_and!; done].
  destruct (String.eqb_spec directory "") as [->|Hdir].
  { unfold throw in Hu. simplify_eq. left. split_and!; try done. by eexists. }
  destruct (detectPackageManager_prints_only s) as [Hw0 Hc0].
  unfold printing in *.
  destruct (manager.detectPackageManager (platform w) (console s))
    as [[packageManager|e] out] eqn:Hdetect; simpl in Hw0, Hc0.
  2: { simplify_eq. left. split_and!; try done. by eexists. }
  fold (manifest_path w directory) in Hu.
  destruct (String.eqb_spec (manifest_path w directory) "") as [Hpath|Hpath].
  { unfold throw in Hu. simplify_eq. left. split_and!; try done. by eexists. }
  unfold try_catch in Hu.
  match type of Hu with context [update_manifest w ?a ?b ?c ?d ?s1] =>
    destruct (update_manifest w a b c d s1) as [r0 s2] eqn:Hbody
  end.
  apply update_manifest_outcome in Hbody
    as [(Hw & Hc & Hfails)
       |(-> & text & p & updates & p' & s1 & Hread & Hparse & Hsel & Hupd
            & Happly & Hw & Hc)].
  - left. simpl in Hw, Hc.
    destruct r0 as [[]|e]; unfold throw in Hu; simplify_eq;
      (split_and!; [done | done |]); intros dir updates Hd Hs Hup;
      [by apply (Hfails updates) | by eexists].
  - right. simplify_eq. split; [done |].
    exists directory, packageManager, text, p, updates, p'.
    eexists _, s1. split_and!; try done.
Qed.

(** X11: a call writes the manifest at most once and runs at most one
    command.  Either it writes nothing and runs nothing, or it returns
    normally after one write and one install command, whatever that command
    did. *)
Theorem update_writes_once_and_installs_once outdated o s r s' :
  updateDependencies w outdated o s = (r, s') →
  (written s' = written s ∧ commands s' = commands s) ∨
  (r = Ok tt ∧
   ∃ file document command,
     written s' = written s ++ [(file, document)] ∧
     commands s' = commands s ++ [command] ∧
     command ∈ ["yarn install"; "pnpm install"; "npm install"]).
Proof.
  intros Hu. apply updateDependencies_outcome in Hu
    as [(Hw & Hc & _)
       |(-> & dir & pm & text & p & updates & p' & s0 & s1 & _ & _ & _ & _
            & _ & _ & _ & _ & Hw & Hc)].
  - by left.
  - right. split; [done |].
    exists (manifest_path w dir), p', (install_command pm).
    split_and!; try done.
    unfold install_command. repeat case_match; set_solver.
Qed.

(** X12: past the two guards every failure is reported under one heading:
    the error thrown is a new one whose message is "Failed to update
    dependencies: " followed by the message of the cause, and nothing was
    written and no command run. *)
Theorem update_failure_is_wrapped outdated o s e s' directory :
  updateDependencies w outdated o s = (Throw e, s') →
  manager.cwd (platform w) = Ok directory →
  directory ≠ "" →
  manifest_path w directory ≠ "" →
  (∃ cause, e = Error ("Failed to update dependencies: " +:+ message cause)) ∧
  written s' = written s ∧ commands s' = commands s.
Proof.
  intros Hu Hcwd Hdir Hpath. split.
  - revert Hu. unfold updateDependencies, bind, lift. rewrite Hcwd.
    destruct (String.eqb_spec directory ""); [done |].
    unfold printing.
    destruct (manager.detectPackageManager (platform w) (console s))
      as [[pm|e0] out] eqn:Hdetect.
    2: { revert Hdetect. unfold manager.detectPackageManager, bind, lift.
         rewrite Hcwd. destruct (String.eqb_spec directory ""); [done |].
         unfold ret. by repeat case_match. }
    fold (manifest_path w directory).
    destruct (String.eqb_spec (manifest_path w directory) ""); [done |].
    unfold try_catch, throw.
    match goal with |- context [update_manifest w ?a ?b ?c ?d ?s1] =>
      destruct (update_manifest w a b c d s1) as [[[]|cause] s2]
    end; intros Hu; simplify_eq. by exists cause.
  - apply updateDependencies_outcome in Hu as [(Hw & Hc & _)|(? & _)]; done.
Qed.


(** X14: records of development and peer dependencies count only with
    their option.  When neither option is given and no selected record has
    type "prod", nothing is written and no command is run. *)
Theorem unflagged_types_are_ignored outdated o s r s' updates :
  updateDependencies w outdated o s = (r, s') →
  selection w outdated o = Ok updates →
  dev o = false →
  peer o = false →
  (∀ pkg, pkg ∈ updates → type pkg ≠ "prod") →
  written s' = written s ∧ commands s' = commands s.
Proof.
  intros Hu Hsel Hdev Hpeer Hnone. apply updateDependencies_outcome in Hu
    as [(Hw & Hc & _)
       |(-> & dir & pm & text & p & updates' & p' & s0 & s1 & _ & _ & _
            & _ & _ & Hsel' & Hupd & _)]; [done |].
  rewrite Hsel in Hsel'. simplify_eq.
  unfold updated in Hupd. rewrite Hdev, Hpeer in Hupd. simpl in Hupd.
  rewrite !orb_false_r in Hupd.
  destruct (of_type "prod" updates') as [|pkg rest] eqn:Hprod; [done |].
  assert (Hin : pkg ∈ of_type "prod" updates') by (rewrite Hprod; left).
  apply elem_of_of_type in Hin as [Hin Htype]. by destruct (Hnone pkg Hin).
Qed.

(** X15: the install command follows the lock file of the working
    directory: [yarn install] when it holds a yarn.lock, else
    [pnpm install] when it holds a pnpm-lock.yaml, else [npm install]. *)
Theorem install_follows_lock_file outdated o s r s' directory command :
  updateDependencies w outdated o s = (r, s') →
  manager.cwd (platform w) = Ok directory →
  commands s' = commands s ++ [command] →
  let present name :=
    manager.existsSync (platform w)
      (manager.path_join (platform w) directory name) in
  command =
    if present "yarn.lock" then "yarn install"
    else if present "pnpm-lock.yaml" then "pnpm install"
    else "npm install".
Proof.
  intros Hu Hcwd Hcommands present. apply updateDependencies_outcome in Hu
    as [(_ & Hc & _)
       |(-> & dir & pm & text & p & updates & p' & s0 & s1 & Hcwd' & Hdir
            & Hdetect & _ & _ & _ & _ & _ & _ & Hc)].
  - rewrite Hc in Hcommands. apply (f_equal length) in Hcommands.
    rewrite length_app in Hcommands. simpl in Hcommands. lia.
  - rewrite Hc in Hcommands. apply app_inj_tail in Hcommands as [_ <-].
    rewrite Hcwd in Hcwd'. simplify_eq.
    revert Hdetect. unfold manager.detectPackageManager, bind, lift.
    rewrite Hcwd. destruct (String.eqb_spec dir ""); [done |].
    subst present. cbv beta.
    destruct (manager.existsSync _ (manager.path_join _ dir "yarn.lock"));
      [unfold ret; simpl; intros; by simplify_eq |].
    destruct (manager.existsSync _ (manager.path_join _ dir "pnpm-lock.yaml"));
      unfold ret; simpl; intros; by simplify_eq.
Qed.

End update_facts.

Section manager_facts.
Context (w : manager.World).

(** X16: the two copies of [detectPackageManager] agree whenever the
    working directory is a non-empty string, and then print nothing. *)
Theorem copies_of_detectPackageManager_agree directory out :
  manager.cwd w = Ok directory →
  directory ≠ "" →
  manager.detectPackageManager w out = (manager.detectPackageManager_cjs w, out).
Proof.
  intros Hcwd Hdir.
  unfold manager.detectPackageManager, manager.detectPackageManager_cjs,
    bind, lift, and_then.
  rewrite Hcwd. destruct (String.eqb_spec directory ""); [done |].
  unfold ret. by repeat case_match.
Qed.

End manager_facts.

(** * The registry path *)

Section registry_facts.
Context (w : security.World).
Import security.

Lemma visit_guard_is_idle name version s :
  try_catch (getPackageVulnerabilities w name version)
    (fun error =>
       warn ("Warning: Could not check vulnerabilities for "
             +:+ name +:+ "@" +:+ version +:+ ": " +:+ message error);;;
       ret []) s
  = getPackageVulnerabilities w name version s.
Proof.
  unfold try_catch.
  by destruct (getPackageVulnerabilities_returns w name version s)
    as (found & s' & ->).
Qed.

Lemma getPackageVulnerabilities_requests name version s r s' :
  getPackageVulnerabilities w name version s = (r, s') →
  (vulnerabilityCache s !! cache_key name version ≠ None ∧
   requests s' = requests s) ∨
  (vulnerabilityCache s !! cache_key name version = None ∧
   requests s' = requests s ++ [registry_url name version]).
Proof.
  intros Hget.
  destruct (vulnerabilityCache s !! cache_key name version) as [hit|] eqn:Hc.
  - rewrite (getPackageVulnerabilities_hit _ _ _ _ _ Hc) in Hget.
    left. by simplify_eq.
  - rewrite (getPackageVulnerabilities_miss _ _ _ _ Hc) in Hget.
    simpl in Hget. right. by destruct (answer _ _ _); simplify_eq.
Qed.

Lemma visit_returns entries found s :
  ∃ found' s', visit w entries found s = (Ok found', s').
Proof.
  revert found s. induction entries as [|[name v] entries IH]; intros found s.
  - by eexists _, _.
  - simpl. destruct v; try apply IH.
    destruct (startsWith _ "file:" || startsWith _ "git+"); [apply IH |].
    unfold bind at 1. rewrite visit_guard_is_idle.
    destruct (getPackageVulnerabilities_returns w name s0 s)
      as (pushed & s1 & ->).
    apply IH.
Qed.

Lemma visit_requests entries found s r s' :
  visit w entries found s = (r, s') →
  vulnerabilityCache s ⊆ vulnerabilityCache s' ∧
  ∃ sent, requests s' = requests s ++ sent ∧ sent `sublist_of` targets entries.
Proof.
  revert found s. induction entries as [|[name v] entries IH]; intros found s.
  - simpl. unfold ret. intros ?; simplify_eq. split; [done |].
    exists []. by rewrite app_nil_r.
  - simpl. destruct v; try apply IH. unfold targets. simpl.
    destruct (startsWith _ "file:" || startsWith _ "git+"); [apply IH |].
    unfold bind at 1. rewrite visit_guard_is_idle.
    destruct (getPackageVulnerabilities w name s0 s) as [[pushed|e] s1] eqn:Hget.
    2: { destruct (getPackageVulnerabilities_returns w name s0 s)
           as (? & ? & Hok). congruence. }
    intros Hrest. apply IH in Hrest as (Hsub & sent & Hsent & Hlist).
    split.
    + etrans; [| exact Hsub]. apply map_subseteq_spec. intros key hit Hkey.
      by eapply getPackageVulnerabilities_keeps.
    + apply getPackageVulnerabilities_requests in Hget as [[_ Hr]|[_ Hr]].
      * exists sent. split; [congruence |]. by apply sublist_cons.
      * exists (registry_url name s0 :: sent). split.
        -- rewrite Hsent, Hr. by rewrite <- app_assoc.
        -- simpl. by apply sublist_skip.
Qed.

Lemma visit_warm entries found s :
  (∀ name version, (name, version) ∈ candidates entries →
     vulnerabilityCache s !! cache_key name version ≠ None) →
  visit w entries found s =
    (Ok (found ++ cached_findings s (candidates entries)), s).
Proof.
  revert found. induction entries as [|[name v] entries IH]; intros found Hwarm.
  - simpl. unfold ret, cached_findings. simpl. by rewrite app_nil_r.
  - simpl in *. destruct v; try by apply IH.
    destruct (startsWith _ "file:" || startsWith _ "git+"); [by apply IH |].
    unfold bind at 1. rewrite visit_guard_is_idle.
    destruct (vulnerabilityCache s !! cache_key name s0) as [hit|] eqn:Hc.
    2: { destruct (Hwarm name s0); [left | done]. }
    rewrite (getPackageVulnerabilities_hit _ _ _ _ _ Hc).
    rewrite IH by (intros; apply Hwarm; by right).
    unfold cached_findings. simpl. rewrite Hc. simpl. by rewrite app_assoc.
Qed.

(** The aggregator when the probe of the audit fails and the manifest
    loads: it is the loop over the merged dependencies. *)
Lemma checkVulnerabilities_registry s e text p :
  npm_audit_probe w = Throw e →
  readFile w = Ok text →
  JSON_parse_manifest w text = Ok p →
  checkVulnerabilities w s = visit w (own_entries (checker.allDeps p)) [] s.
Proof.
  intros Hprobe Hread Hparse.
  unfold checkVulnerabilities, hasNpmAudit, checkWithNpmRegistry.
  unfold try_catch, bind, lift, ret. rewrite Hprobe, Hread, Hparse.
  by destruct (visit_returns (own_entries (checker.allDeps p)) [] s)
    as (found & s' & ->).
Qed.

(** X17: on the registry path at most one request goes out per declared
    dependency, in the order of the merged dependencies, and none for a
    local path, a git address or a range that is not a string. *)
Theorem registry_is_asked_once_per_dependency s r s' e text p :
  checkVulnerabilities w s = (r, s') →
  npm_audit_probe w = Throw e →
  readFile w = Ok text →
  JSON_parse_manifest w text = Ok p →
  ∃ sent, requests s' = requests s ++ sent ∧
          sent `sublist_of` targets (own_entries (checker.allDeps p)).
Proof.
  intros Hrun Hprobe Hread Hparse.
  rewrite (checkVulnerabilities_registry _ _ _ _ Hprobe Hread Hparse) in Hrun.
  by apply visit_requests in Hrun as [_ ?].
Qed.

(** X18: when the probe of the audit succeeds the registry is left alone:
    no request goes out and the cache is as it was. *)
Theorem audit_path_leaves_registry_alone s r s' :
  checkVulnerabilities w s = (r, s') →
  npm_audit_probe w = Ok tt →
  requests s' = requests s ∧ vulnerabilityCache s' = vulnerabilityCache s.
Proof.
  unfold checkVulnerabilities, hasNpmAudit, checkWithNpmAudit.
  unfold try_catch, bind, lift, ret, throw, warn. intros Hrun Hprobe.
  rewrite Hprobe in Hrun.
  destruct (npm_audit w) as [output|e]; [| by simplify_eq].
  destruct (audit_findings w output); by simplify_eq.
Qed.

(** X19: a run never removes or replaces an entry of the cache. *)
Theorem cache_only_grows s :
  vulnerabilityCache s ⊆ vulnerabilityCache (checkVulnerabilities w s).2.
Proof.
  unfold checkVulnerabilities, hasNpmAudit, checkWithNpmAudit,
    checkWithNpmRegistry.
  unfold try_catch, bind, lift, ret, throw, warn.
  destruct (npm_audit_probe w) as [[]|e0].
  - destruct (npm_audit w) as [output|e1]; [| done].
    by destruct (audit_findings w output).
  - destruct (readFile w) as [text|e1]; [| done].
    destruct (JSON_parse_manifest w text) as [p|e2]; [| done].
    destruct (visit w (own_entries (checker.allDeps p)) [] s)
      as [[found|e3] s'] eqn:Hvisit;
      by apply visit_requests in Hvisit as [? _].
Qed.

(** X20: a warm cache needs no network.  When the cache holds an entry for
    every dependency the loop asks about, the run sends no request, prints
    nothing, leaves the cache as it is, and returns the cached findings in
    the order of the merged dependencies. *)
Theorem warm_cache_needs_no_network s e text p :
  npm_audit_probe w = Throw e →
  readFile w = Ok text →
  JSON_parse_manifest w text = Ok p →
  (∀ name version,
     (name, version) ∈ candidates (own_entries (checker.allDeps p)) →
     vulnerabilityCache s !! cache_key name version ≠ None) →
  checkVulnerabilities w s =
    (Ok (cached_findings s (candidates (own_entries (checker.allDeps p)))), s).
Proof.
  intros Hprobe Hread Hparse Hwarm.
  rewrite (checkVulnerabilities_registry _ _ _ _ Hprobe Hread Hparse).
  by rewrite visit_warm.
Qed.

(** *** The records of the registry path *)

Lemma or_else_truthy a b : truthy b = true → truthy (or_else a b) = true.
Proof. unfold or_else. by destruct (truthy a) eqn:Ha. Qed.

Lemma registry_record_complete name version vuln r :
  registry_record name version vuln = Ok r → complete r.
Proof.
  unfold registry_record, and_then. intros Hr.
  destruct (get vuln "severity") as [severity|]; [| done].
  destruct (get vuln "title") as [title|]; [| done].
  destruct (get vuln "url") as [url|]; [| done].
  destruct (truthy url) eqn:Hurl.
  - repeat case_match; simplify_eq.
    unfold complete; simpl; split_and!; by try apply or_else_truthy.
  - destruct (get vuln "id") as [id|]; [| done].
    destruct (ToString id) as [text|]; [| done].
    repeat case_match; simplify_eq.
    unfold complete; simpl; split_and!; by try apply or_else_truthy.
Qed.

Lemma collect_Forall {A B} (P : B → Prop) (body : A → result (list B)) xs out :
  (∀ x pushed, body x = Ok pushed → Forall P pushed) →
  collect body xs = Ok out → Forall P out.
Proof.
  intros Hbody. revert out. induction xs as [|x xs IH]; intros out Hc.
  - simpl in Hc. by simplify_eq.
  - simpl in Hc. unfold and_then in Hc.
    destruct (body x) as [pushed|] eqn:Hx; [| done].
    destruct (collect body xs) as [rest|]; [| done]. simplify_eq.
    apply Forall_app. split; [by eapply Hbody | by apply IH].
Qed.

Lemma registry_findings_complete name version data found :
  registry_findings name version data = Ok found → Forall complete found.
Proof.
  unfold registry_findings, and_then. intros Hf.
  destruct (get data "vulnerabilities") as [listed|]; [| done].
  destruct (truthy listed); [| by simplify_eq].
  destruct (Object_values listed) as [vulns|]; [| done].
  eapply collect_Forall; [| exact Hf]. intros vuln pushed Hp.
  unfold and_then in Hp.
  destruct (registry_record name version vuln) as [r|] eqn:Hr; [| done].
  simplify_eq. constructor; [| done]. by eapply registry_record_complete.
Qed.

Lemma getPackageVulnerabilities_complete name version s found s' :
  map_Forall (λ _, Forall complete) (vulnerabilityCache s) →
  getPackageVulnerabilities w name version s = (Ok found, s') →
  Forall complete found ∧
  map_Forall (λ _, Forall complete) (vulnerabilityCache s').
Proof.
  intros Hcache Hget.
  destruct (vulnerabilityCache s !! cache_key name version) as [hit|] eqn:Hc.
  - rewrite (getPackageVulnerabilities_hit _ _ _ _ _ Hc) in Hget. simplify_eq.
    split; [| done]. by apply (Hcache _ _ Hc).
  - rewrite (getPackageVulnerabilities_miss _ _ _ _ Hc) in Hget.
    simpl in Hget. unfold answer, and_then in Hget.
    destruct (fetch w _ _) as [resp|]; [| by simplify_eq].
    destruct (ok resp); simpl in Hget; [| by simplify_eq].
    destruct (json resp) as [data|]; [| by simplify_eq].
    destruct (registry_findings name version data) as [listed|] eqn:Hf;
      [| by simplify_eq].
    simplify_eq. simpl. apply registry_findings_complete in Hf.
    split; [done |]. by apply map_Forall_insert_2.
Qed.

Lemma visit_complete entries found s found' s' :
  map_Forall (λ _, Forall complete) (vulnerabilityCache s) →
  Forall complete found →
  visit w entries found s = (Ok found', s') →
  Forall complete found'.
Proof.
  revert found s. induction entries as [|[name v] entries IH];
    intros found s Hcache Hfound.
  - simpl. unfold ret. intros ?. by simplify_eq.
  - simpl. destruct v; try by apply IH.
    destruct (startsWith _ "file:" || startsWith _ "git+"); [by apply IH |].
    unfold bind at 1. rewrite visit_guard_is_idle.
    destruct (getPackageVulnerabilities w name s0 s) as [[pushed|e] s1] eqn:Hget;
      [| done].
    apply (getPackageVulnerabilities_complete _ _ _ _ _ Hcache) in Hget
      as [Hpushed Hcache1].
    apply IH; [done |]. apply Forall_app. by split.
Qed.

(** X21: every record of the registry path is complete.  Starting from a
    cache of complete records, such as the empty cache of a new process,
    each record returned has a severity, a title, an address, a vulnerable
    range and a patched range that are set. *)
Theorem registry_records_are_complete s found s' e :
  checkVulnerabilities w s = (Ok found, s') →
  npm_audit_probe w = Throw e →
  map_Forall (λ _, Forall complete) (vulnerabilityCache s) →
  Forall complete found.
Proof.
  intros Hrun Hprobe Hcache. revert Hrun.
  unfold checkVulnerabilities, hasNpmAudit, checkWithNpmRegistry.
  unfold try_catch, bind, lift, ret, throw, warn. rewrite Hprobe.
  destruct (readFile w) as [text|]; [| intros; by simplify_eq].
  destruct (JSON_parse_manifest w text) as [p|]; [| intros; by simplify_eq].
  destruct (visit w (own_entries (checker.allDeps p)) [] s)
    as [[listed|failure] s1] eqn:Hvisit; intros; simplify_eq; [| done].
  by eapply visit_complete.
Qed.

End registry_facts.

(** * The audit path *)

Section audit_facts.
Import security.

Lemma audit_record_version name data r :
  audit_record name data = Ok (Some r) → version r = VUndefined.
Proof.
  unfold audit_record, and_then. intros Hr.
  repeat case_match; by simplify_eq.
Qed.

(** X22: the audit path of [security.js] sets no version: every record it
    returns has [undefined] there. *)
Theorem audit_path_records_carry_no_version (w : World) s found s' :
  checkVulnerabilities w s = (Ok found, s') →
  npm_audit_probe w = Ok tt →
  Forall (λ v, version v = VUndefined) found.
Proof.
  unfold checkVulnerabilities, hasNpmAudit, checkWithNpmAudit.
  unfold try_catch, bind, lift, ret, throw, warn. intros Hrun Hprobe.
  rewrite Hprobe in Hrun.
  destruct (npm_audit w) as [output|failure]; [| by simplify_eq].
  destruct (audit_findings w output) as [listed|failure] eqn:Hf;
    simplify_eq; [| done].
  revert Hf. unfold audit_findings, and_then.
  destruct (JSON_parse w output) as [audit|]; [| done].
  destruct (get audit "vulnerabilities") as [reported|]; [| done].
  destruct (truthy reported); simpl; [| intros; by simplify_eq].
  destruct (Object_entries reported) as [entries|]; [| done].
  apply collect_Forall. intros [name data] pushed. simpl.
  destruct (audit_record name data) as [[r|]|] eqn:Hr; intros; simplify_eq;
    [| done]. simpl.
  constructor; [| done]. by eapply audit_record_version.
Qed.

Lemma esm_audit_record_described (w : security_esm.World) name data r :
  security_esm.audit_record w name data = Ok (Some r) → described r.
Proof.
  unfold security_esm.audit_record, and_then. intros Hr.
  destruct (get data "via") as [via|]; [| done].
  destruct (if truthy via then _ else _) as [[]|]; [| done | done].
  destruct (truthy (security_esm.first_of via) && _); [| done].
  destruct (get data "severity") as [severity|]; [| done].
  destruct (get (security_esm.first_of via) "title") as [title|]; [| done].
  destruct (get (security_esm.first_of via) "url") as [url|]; [| done].
  destruct (get data "range") as [range|]; [| done].
  destruct (get (security_esm.first_of via) "fixedIn") as [fixedIn|]; [| done].
  destruct (truthy fixedIn).
  - destruct (ToString fixedIn) as [text|]; [| done].
    destruct (get (security_esm.first_of via) "advisory"); [| done].
    destruct (get data "version"); [| done]. simplify_eq.
    unfold described; simpl; split_and!; by try apply or_else_truthy.
  - destruct (get (security_esm.first_of via) "advisory"); [| done].
    destruct (get data "version"); [| done]. simplify_eq.
    unfold described; simpl; split_and!; by try apply or_else_truthy.
Qed.

Lemma esm_failure_record_described name data r :
  security_esm.failure_record name data = Ok r → described r.
Proof.
  unfold security_esm.failure_record, and_then. intros Hr.
  destruct (get data "severity") as [severity|]; [| done].
  destruct (get data "range") as [range|]; [| done]. simplify_eq.
  unfold described; simpl; split_and!; by try apply or_else_truthy.
Qed.

Lemma esm_audit_findings_described (w : security_esm.World) output found :
  security_esm.audit_findings w output = Ok found → Forall described found.
Proof.
  unfold security_esm.audit_findings, and_then.
  destruct (security_esm.JSON_parse w output) as [audit|]; [| done].
  destruct (get audit "vulnerabilities") as [reported|]; [| done].
  destruct (truthy reported); simpl; [| intros; by simplify_eq].
  destruct (Object_entries reported) as [[|entry entries]|];
    [intros; by simplify_eq | | done].
  apply collect_Forall. intros [name data] pushed. simpl.
  destruct (security_esm.audit_record w name data) as [[r|]|] eqn:Hr;
    intros; simplify_eq; [| done]. simpl.
  constructor; [| done]. by eapply esm_audit_record_described.
Qed.

Lemma esm_failure_findings_described (w : security_esm.World) error found :
  security_esm.failure_findings w error = Ok (Some found) →
  Forall described found.
Proof.
  unfold security_esm.failure_findings, and_then.
  destruct (stdout error) as [[|c rest]|]; [done | | done].
  destruct (security_esm.JSON_parse w _) as [audit|]; [| done].
  destruct (get audit "vulnerabilities") as [reported|]; [| done].
  destruct (truthy reported); [| done].
  destruct (Object_entries reported) as [entries|]; [| done].
  destruct (collect _ entries) as [listed|] eqn:Hc; [| done].
  intros; simplify_eq. eapply collect_Forall; [| exact Hc].
  intros [name data] pushed. simpl.
  destruct (security_esm.failure_record name data) as [r|] eqn:Hr;
    intros; simplify_eq.
  constructor; [| done]. by eapply esm_failure_record_described.
Qed.

Lemma esm_failed_audit_outcome (w : security_esm.World) error out r out' :
  security_esm.failed_audit w error out = (r, out') →
  ∃ found, r = Ok found ∧ Forall described found ∧
    (out' = out ∨ (found = [] ∧ ∃ line, out' = out ++ [line])).
Proof.
  unfold security_esm.failed_audit.
  destruct (security_esm.mentions (stdout error) _).
  { unfold ret. intros; simplify_eq. exists []. auto. }
  destruct (security_esm.mentions (Some (message error)) _).
  { unfold ret. intros; simplify_eq. exists []. auto. }
  unfold bind at 1.
  destruct (bool_decide (status error = Some 1%Z) && _).
  - unfold try_catch, lift.
    destruct (security_esm.failure_findings w error) as [[found|]|] eqn:Hf.
    + unfold ret. intros; simplify_eq. exists found.
      split_and!; [done | by eapply esm_failure_findings_described | by left].
    + unfold bind, checker.warn, ret. intros; simplify_eq. exists [].
      split_and!; [done | done |]. right. split; [done |]. by eexists.
    + unfold ret. intros; simplify_eq. exists []. auto.
  - unfold ret at 1, bind, checker.warn, ret. intros; simplify_eq. exists [].
    split_and!; [done | done |]. right. split; [done |]. by eexists.
Qed.

Lemma esm_checkVulnerabilities_outcome (w : security_esm.World) out r out' :
  security_esm.checkVulnerabilities w out = (r, out') →
  ∃ found, r = Ok found ∧ Forall described found ∧
    (out' = out ∨ (found = [] ∧ ∃ line, out' = out ++ [line])).
Proof.
  unfold security_esm.checkVulnerabilities, try_catch, bind at 1, lift.
  destruct (security_esm.cwd w) as [directory|failure].
  2: { unfold bind, checker.warn, ret. intros; simplify_eq. exists [].
       split_and!; [done | done |]. right. split; [done |]. by eexists. }
  destruct (String.eqb directory "").
  { unfold bind, checker.warn, ret. intros; simplify_eq. exists [].
    split_and!; [done | done |]. right. split; [done |]. by eexists. }
  unfold security_esm.checkWithNpmAudit, try_catch, bind, lift.
  destruct (security_esm.npm_audit w) as [output|failure].
  - destruct (security_esm.audit_findings w output) as [found|failure] eqn:Hf.
    + intros; simplify_eq. exists found.
      split_and!; [done | by eapply esm_audit_findings_described | by left].
    + destruct (security_esm.failed_audit w failure out) as [r0 out0] eqn:Hh.
      apply esm_failed_audit_outcome in Hh as (found & -> & ? & ?).
      intros; simplify_eq. by exists found.
  - destruct (security_esm.failed_audit w failure out) as [r0 out0] eqn:Hh.
    apply esm_failed_audit_outcome in Hh as (found & -> & ? & ?).
    intros; simplify_eq. by exists found.
Qed.

(** X23: every record the ES-module copy returns is described: severity,
    title, vulnerable range, patched range and version are all set. *)
Theorem esm_records_are_described (w : security_esm.World) out found out' :
  security_esm.checkVulnerabilities w out = (Ok found, out') →
  Forall described found.
Proof.
  intros Hrun. apply esm_checkVulnerabilities_outcome in Hrun
    as (found' & Heq & Hall & _). by simplify_eq.
Qed.

(** X24: a call of the ES-module copy prints at most one line, and none
    when it returns findings. *)
Theorem esm_warns_at_most_once (w : security_esm.World) out r out' :
  security_esm.checkVulnerabilities w out = (r, out') →
  out' = out ∨ (r = Ok [] ∧ ∃ line, out' = out ++ [line]).
Proof.
  intros Hrun. apply esm_checkVulnerabilities_outcome in Hrun
    as (found & -> & _ & [->|[-> Hline]]); auto.
Qed.

End audit_facts.

(** * Worked runs *)

Section more_checker_runs.
Import checker updater documents runs more_runs.

Lemma records_are_distinct_and_ordered_witness :
  (name <$> [record_of newer_and_equal "left-pad" "^1.2.0" "1.3.0";
             record_of newer_and_equal "chalk" "^4.1.0" "5.0.0"])
    `sublist_of` (own_entries (allDeps newer_and_equal)).*1 ∧
  NoDup (name <$> [record_of newer_and_equal "left-pad" "^1.2.0" "1.3.0";
                   record_of newer_and_equal "chalk" "^4.1.0" "5.0.0"]).
Proof.
  apply (records_are_distinct_and_ordered (H := semver.strict)
           (world newer_and_equal [("left-pad", "1.3.0"); ("chalk", "5.0.0")])
           newer_and_equal [] _ []).
  - exists (manifest_text newer_and_equal). split_and!; vm_compute; reflexivity.
  - vm_compute. reflexivity.
Defined.

Lemma local_and_git_dependencies_are_never_reported_witness :
  (∀ r, r ∈ [record_of with_local_packages "chalk" "^4.1.0" "5.0.0"] →
        name r ≠ "ui-kit") ∧
  (∀ r, r ∈ [record_of with_local_packages "chalk" "^4.1.0" "5.0.0"] →
        skipped (current r) = false).
Proof.
  apply (local_and_git_dependencies_are_never_reported (H := semver.strict)
           (world with_local_packages [("chalk", "5.0.0"); ("ui-kit", "9.9.9")])
           with_local_packages [] _ [] "ui-kit" "file:../ui-kit").
  - exists (manifest_text with_local_packages).
    split_and!; vm_compute; reflexivity.
  - vm_compute. reflexivity.
  - vm_compute. left.
  - vm_compute. reflexivity.
Defined.

Lemma nothing_to_check_is_silent_witness :
  checkDependencies (H := semver.strict)
    (world only_local_packages [("ui-kit", "9.9.9")]) [] = (Ok [], []).
Proof.
  apply (nothing_to_check_is_silent (H := semver.strict)
           (world only_local_packages [("ui-kit", "9.9.9")])
           only_local_packages []).
  - exists (manifest_text only_local_packages).
    split_and!; vm_compute; reflexivity.
  - vm_compute. repeat constructor.
    + exists "file:../ui-kit". split; reflexivity.
    + exists "git+https://example.org/legacy.git". split; reflexivity.
Defined.

Lemma manifest_failure_is_fatal_witness :
  checkDependencies (H := semver.strict) unreadable [] =
    (Throw (Error ("Error checking dependencies: " +:+
                   "EACCES: permission denied, open 'package.json'")), []).
Proof.
  apply (manifest_failure_is_fatal (H := semver.strict) unreadable
           (Error "EACCES: permission denied, open 'package.json'") []).
  right. left. split; reflexivity.
Defined.

Lemma non_string_range_is_fatal_witness :
  ∃ bad out',
    (∀ cv, bad ≠ VStr cv) ∧
    checkDependencies (H := semver.strict)
      (world with_numeric_range [("chalk", "5.0.0")]) [] =
      (Throw (Error ("Error checking dependencies: "
                     +:+ message (no_startsWith bad))), out').
Proof.
  apply (non_string_range_is_fatal (H := semver.strict)
           (world with_numeric_range [("chalk", "5.0.0")])
           with_numeric_range [] "left-pad"
           (VNum {| num_sign := Gt; num_text := "1" |})).
  - exists (manifest_text with_numeric_range).
    split_and!; vm_compute; reflexivity.
  - vm_compute. right. left.
  - intros cv. discriminate.
Defined.

Lemma rewritten_range_keeps_operator_witness :
  getVersionPrefix (getVersionPrefix "^1.2.0" +:+ "1.3.0") =
    getVersionPrefix "^1.2.0" ∧
  strip_range_operators (getVersionPrefix "^1.2.0" +:+ "1.3.0") = "1.3.0".
Proof.
  apply (rewritten_range_keeps_operator "^1.2.0" "1.3.0"). reflexivity.
Defined.


End more_checker_runs.

Section updater_runs.
Import checker updater documents update_runs.

Lemma update_changes_ranges_only_witness :
  packages mixed_updated in_dependencies = packages mixed in_dependencies ∧
  (∀ d', d' ≠ in_dependencies → bucket_of mixed_updated d' = bucket_of mixed d') ∧
  (∀ k, (∀ pkg, pkg ∈ [left_pad_record] → name pkg ≠ k) →
        own (bucket_of mixed_updated in_dependencies) k =
        own (bucket_of mixed in_dependencies) k) ∧
  written (updateDependenciesInPackageJson mixed in_dependencies
             [left_pad_record] fresh).2 = written fresh ∧
  commands (updateDependenciesInPackageJson mixed in_dependencies
              [left_pad_record] fresh).2 = commands fresh.
Proof.
  apply (update_changes_ranges_only mixed in_dependencies [left_pad_record]
           fresh mixed_updated).
  vm_compute. reflexivity.
Defined.

Lemma update_writes_prefix_and_latest_witness :
  ∃ text, ToString (latest left_pad_record) = Ok text ∧
    own (bucket_of mixed_updated in_dependencies) (name left_pad_record) =
      Some (VStr (getVersionPrefix "^1.2.0" +:+ text)).
Proof.
  apply (update_writes_prefix_and_latest mixed in_dependencies
           [left_pad_record] fresh mixed_updated
           (updateDependenciesInPackageJson mixed in_dependencies
              [left_pad_record] fresh).2 left_pad_record "^1.2.0").
  - vm_compute. reflexivity.
  - vm_compute. repeat constructor. set_solver.
  - left.
  - reflexivity.
  - discriminate.
Defined.

Lemma update_writes_once_and_installs_once_witness :
  let run := updateDependencies (project ["yarn.lock"] install_failed)
               [left_pad_record; jest_record] automatic fresh in
  (written run.2 = written fresh ∧ commands run.2 = commands fresh) ∨
  (run.1 = Ok tt ∧
   ∃ file document command,
     written run.2 = written fresh ++ [(file, document)] ∧
     commands run.2 = commands fresh ++ [command] ∧
     command ∈ ["yarn install"; "pnpm install"; "npm install"]).
Proof.
  apply (update_writes_once_and_installs_once
           (project ["yarn.lock"] install_failed)
           [left_pad_record; jest_record] automatic fresh).
  vm_compute. reflexivity.
Defined.

Lemma update_failure_is_wrapped_witness :
  let run := updateDependencies no_manifest [left_pad_record] automatic fresh in
  (∃ cause,
     Error ("Failed to update dependencies: " +:+
            "ENOENT: no such file or directory, open '/srv/app/package.json'")
     = Error ("Failed to update dependencies: " +:+ message cause)) ∧
  written run.2 = written fresh ∧ commands run.2 = commands fresh.
Proof.
  apply (update_failure_is_wrapped no_manifest [left_pad_record] automatic
           fresh _ _ "/srv/app").
  - vm_compute. reflexivity.
  - reflexivity.
  - discriminate.
  - vm_compute. discriminate.
Defined.


Lemma unflagged_types_are_ignored_witness :
  let run := updateDependencies (project [] (Ok tt)) [jest_record]
               automatic fresh in
  written run.2 = written fresh ∧ commands run.2 = commands fresh.
Proof.
  apply (unflagged_types_are_ignored (project [] (Ok tt)) [jest_record]
           automatic fresh (Ok tt) _ [jest_record]).
  - vm_compute. reflexivity.
  - reflexivity.
  - reflexivity.
  - reflexivity.
  - intros pkg Hin. apply list_elem_of_singleton in Hin. subst pkg.
    discriminate.
Defined.

Lemma install_follows_lock_file_witness :
  "pnpm install" =
    if manager.existsSync (directory ["pnpm-lock.yaml"])
         (manager.path_join (directory ["pnpm-lock.yaml"]) "/srv/app" "yarn.lock")
    then "yarn install"
    else if manager.existsSync (directory ["pnpm-lock.yaml"])
              (manager.path_join (directory ["pnpm-lock.yaml"]) "/srv/app"
                 "pnpm-lock.yaml")
    then "pnpm install"
    else "npm install".
Proof.
  apply (install_follows_lock_file
           (project ["pnpm-lock.yaml"] install_failed)
           [left_pad_record; jest_record] confirmed fresh (Ok tt)
           (updateDependencies (project ["pnpm-lock.yaml"] install_failed)
              [left_pad_record; jest_record] confirmed fresh).2
           "/srv/app" "pnpm install").
  - vm_compute. reflexivity.
  - reflexivity.
  - vm_compute. reflexivity.
Defined.

Lemma copies_of_detectPackageManager_agree_witness :
  manager.detectPackageManager (directory ["yarn.lock"; "pnpm-lock.yaml"]) [] =
    (manager.detectPackageManager_cjs
       (directory ["yarn.lock"; "pnpm-lock.yaml"]), []).
Proof.
  apply (copies_of_detectPackageManager_agree
           (directory ["yarn.lock"; "pnpm-lock.yaml"]) "/srv/app" []).
  - reflexivity.
  - discriminate.
Defined.

End updater_runs.

Section more_security_runs.
Import documents security reports registry_runs.

Lemma registry_is_asked_once_per_dependency_witness :
  ∃ sent,
    requests (checkVulnerabilities (registry_only with_local) fresh).2 =
      requests fresh ++ sent ∧
    sent `sublist_of` targets (own_entries (checker.allDeps with_local)).
Proof.
  apply (registry_is_asked_once_per_dependency (registry_only with_local)
           fresh (Ok [minimist_advisory]) _ (exit_error 127 None)
           (manifest_text with_local) with_local).
  - vm_compute. reflexivity.
  - reflexivity.
  - reflexivity.
  - vm_compute. reflexivity.
Defined.

Lemma audit_path_leaves_registry_alone_witness :
  requests (checkVulnerabilities (audit_prints report_high) fresh).2 =
    requests fresh ∧
  vulnerabilityCache (checkVulnerabilities (audit_prints report_high) fresh).2 =
    vulnerabilityCache fresh.
Proof.
  apply (audit_path_leaves_registry_alone (audit_prints report_high) fresh
           (Ok [minimist_finding (VStr "high")])).
  - vm_compute. reflexivity.
  - reflexivity.
Defined.

Lemma warm_cache_needs_no_network_witness :
  checkVulnerabilities (registry_only with_local) warmed_up =
    (Ok (cached_findings warmed_up
           (candidates (own_entries (checker.allDeps with_local)))),
     warmed_up).
Proof.
  apply (warm_cache_needs_no_network (registry_only with_local) warmed_up
           (exit_error 127 None) (manifest_text with_local) with_local).
  - reflexivity.
  - reflexivity.
  - vm_compute. reflexivity.
  - intros name version Hin.
    change (candidates (own_entries (checker.allDeps with_local)))
      with [("minimist", "1.2.5")] in Hin.
    apply list_elem_of_singleton in Hin. injection Hin as -> ->.
    vm_compute. discriminate.
Defined.

Lemma registry_records_are_complete_witness :
  Forall complete [minimist_advisory].
Proof.
  apply (registry_records_are_complete (registry_only with_local) fresh
           [minimist_advisory]
           (checkVulnerabilities (registry_only with_local) fresh).2
           (exit_error 127 None)).
  - vm_compute. reflexivity.
  - reflexivity.
  - apply map_Forall_empty.
Defined.

Lemma audit_path_records_carry_no_version_witness :
  Forall (λ v, version v = VUndefined) [minimist_finding (VStr "high")].
Proof.
  apply (audit_path_records_carry_no_version (audit_prints report_high) fresh
           [minimist_finding (VStr "high")] fresh).
  - vm_compute. reflexivity.
  - reflexivity.
Defined.

Lemma esm_records_are_described_witness :
  Forall described
    (match (security_esm.checkVulnerabilities
              (esm_audit_prints report_without_severity) []).1 with
     | Ok found => found
     | Throw _ => []
     end).
Proof.
  apply (esm_records_are_described (esm_audit_prints report_without_severity)
           [] _ []).
  vm_compute. reflexivity.
Defined.

Lemma esm_warns_at_most_once_witness :
  let run := security_esm.checkVulnerabilities esm_all_down [] in
  run.2 = [] ∨ (run.1 = Ok [] ∧ ∃ line, run.2 = [] ++ [line]).
Proof.
  apply (esm_warns_at_most_once esm_all_down []).
  vm_compute. reflexivity.
Defined.

End more_security_runs.
